(** * Bear's output filter (src/filter.c): a shallow embedding

    The filter decides, for one observed process invocation, whether it is a
    compiler call and which argument is the source file.  The C code works on
    heap objects (the filter structure, the arrays of compiled patterns, the
    result string), so the embedding is a state-and-error monad over a heap;
    the POSIX regex library is an interface the code is parametric in. *)

From Stdlib Require Import ZArith Ascii String.
From stdpp Require Import gmap strings list.

(* stdpp's solvers clear hypotheses by names that may be gone. *)
Set Warnings "-clear-no-such-hyp".

Open Scope Z_scope.

(** ** The regex library (<regex.h>)

    [regcomp] with [REG_EXTENDED] either yields a compiled pattern or fails
    with a non-zero code; [regexec] with no match array and no flags returns
    0 exactly when the compiled pattern matches somewhere within the input,
    and a non-zero code ([REG_NOMATCH]) otherwise. *)
Class RegexLib := {
  regex_t : Type;
  regcomp : string → option regex_t;
  regexec : regex_t → string → Z;
}.

(** Non-null heap addresses.  A null pointer is [None : option addr]. *)
Definition addr := positive.

(** A structure member that [malloc] left unwritten holds an indeterminate
    value; using one is undefined behaviour. *)
Inductive member (A : Type) :=
  | Indeterminate
  | Stored (a : A).
Arguments Indeterminate {A}.
Arguments Stored {A} a.

(** [struct regex_list_t { size_t length; regex_t * regexs; }].  The code
    only counts up to a [size_t], so it is a [nat] here. *)
Record regex_list_t := {
  length : member nat;
  regexs : member addr;
}.

(** [struct bear_output_filter_t] *)
Record bear_output_filter_t := {
  compilers : regex_list_t;
  source_files : regex_list_t;
  cancel_parameters : regex_list_t;
}.

(** The three members, as in [&filter->compilers]. *)
Inductive field := Compilers | Source_files | Cancel_parameters.

Global Instance field_eq_dec : EqDecision field.
Proof. solve_decision. Defined.

Definition get_field (fld : field) (f : bear_output_filter_t) : regex_list_t :=
  match fld with
  | Compilers => compilers f
  | Source_files => source_files f
  | Cancel_parameters => cancel_parameters f
  end.

Definition set_field (fld : field) (l : regex_list_t) (f : bear_output_filter_t)
  : bear_output_filter_t :=
  match fld with
  | Compilers =>
      {| compilers := l; source_files := source_files f;
         cancel_parameters := cancel_parameters f |}
  | Source_files =>
      {| compilers := compilers f; source_files := l;
         cancel_parameters := cancel_parameters f |}
  | Cancel_parameters =>
      {| compilers := compilers f; source_files := source_files f;
         cancel_parameters := l |}
  end.

(** A pointer to one of the pattern lists of a filter on the heap. *)
Definition regex_list_ptr : Type := addr * field.

(** The part of [bear_message_t] (protocol.h) the filter reads: the working
    directory and the NULL-terminated argument vector; [cmd = None] is a null
    [e->cmd].  C strings hold no NUL character. *)
Record bear_message_t := {
  cwd : string;
  cmd : option (list string);
}.

(** Calls whose order and number the properties below speak about. *)
Inductive event :=
  | ev_match (prepared : regex_list_ptr) (input : string)
  | ev_regfree (array : addr) (idx : nat)
  | ev_free (a : addr).

(** The part of libconfig the filter uses.  An array holds scalars; a group
    holds named settings. *)
Inductive config_scalar :=
  | config_string (s : string)
  | config_int (n : Z).

#[warnings="-register-all"]
Inductive config_setting_t :=
  | config_value (v : config_scalar)
  | config_array (elems : list config_scalar)
  | config_group (members : list (string * config_setting_t)).

(** The root of a configuration document is a group. *)
Definition config_t := config_setting_t.

Fixpoint find_member (name : string) (members : list (string * config_setting_t))
  : option config_setting_t :=
  match members with
  | [] => None
  | (n, s) :: rest => if decide (n = name) then Some s else find_member name rest
  end.

Definition config_setting_get_member (setting : config_setting_t) (name : string)
  : option config_setting_t :=
  match setting with
  | config_group members => find_member name members
  | _ => None
  end.

(** [config_lookup] with a one-component path. *)
Definition config_lookup (config : config_t) (path : string)
  : option config_setting_t :=
  config_setting_get_member config path.

Definition config_setting_is_array (setting : config_setting_t) : bool :=
  match setting with
  | config_array _ => true
  | _ => false
  end.

Definition config_setting_length (setting : config_setting_t) : nat :=
  match setting with
  | config_value _ => 0
  | config_array elems => List.length elems
  | config_group members => List.length members
  end.

(** NULL ([None]) when there is no such element or it is not a string. *)
Definition config_setting_get_string_elem (setting : config_setting_t) (idx : nat)
  : option string :=
  match setting with
  | config_array elems =>
      match elems !! idx with
      | Some (config_string s) => Some s
      | _ => None
      end
  | _ => None
  end.

Section Machine.
Context `{RegexLib}.

(** What a [malloc]ed block holds. *)
Inductive block :=
  | Regexs (slots : list (option regex_t))
  | Chars (s : string)
  | Filter (f : bear_output_filter_t).

(** The heap, and a ghost record of the calls made so far (no decision of
    the code reads it). *)
Record state := State {
  heap : gmap addr block;
  trace : list event;
}.

Inductive outcome (A : Type) :=
  | Ret (a : A) (st : state)
  | Exit (status : Z)
  | Undefined.
Arguments Ret {A} a st.
Arguments Exit {A} status.
Arguments Undefined {A}.

Definition M (A : Type) : Type := state → outcome A.

Global Instance M_ret : MRet M := λ A a st, Ret a st.
Global Instance M_bind : MBind M := λ A B f m st,
  match m st with
  | Ret a st' => f a st'
  | Exit status => Exit status
  | Undefined => Undefined
  end.

Definition undefined {A} : M A := λ _, Undefined.
Definition exit {A} (status : Z) : M A := λ _, Exit status.
Definition EXIT_FAILURE : Z := 1.

Definition record (ev : event) : M unit := λ st,
  Ret () {| heap := heap st; trace := trace st ++ [ev] |}.

Definition load (a : addr) : M block := λ st,
  match heap st !! a with
  | Some b => Ret b st
  | None => Undefined
  end.

Definition store (a : addr) (b : block) : M unit := λ st,
  match heap st !! a with
  | Some _ => Ret () {| heap := <[a := b]> (heap st); trace := trace st |}
  | None => Undefined
  end.

(** [malloc]: a block at an address no live block has (which one does not
    matter below).  Allocation failure is not modelled: where the code checks
    for it, it exits. *)
Definition malloc (b : block) : M addr := λ st,
  let a := fresh (dom (heap st)) in
  Ret a {| heap := <[a := b]> (heap st); trace := trace st |}.

(** [free]: only a live block may be freed. *)
Definition free (a : addr) : M unit := λ st,
  match heap st !! a with
  | Some _ =>
      Ret () {| heap := delete a (heap st); trace := trace st ++ [ev_free a] |}
  | None => Undefined
  end.

Definition read {A} (m : member A) : M A :=
  match m with
  | Stored a => mret a
  | Indeterminate => undefined
  end.

Definition load_list (prepared : regex_list_ptr) : M regex_list_t :=
  b ← load prepared.1;
  match b with
  | Filter f => mret (get_field prepared.2 f)
  | _ => undefined
  end.

Definition store_list (prepared : regex_list_ptr) (l : regex_list_t) : M unit :=
  b ← load prepared.1;
  match b with
  | Filter f => store prepared.1 (Filter (set_field prepared.2 l f))
  | _ => undefined
  end.

Definition load_slots (array : addr) : M (list (option regex_t)) :=
  b ← load array;
  match b with
  | Regexs slots => mret slots
  | _ => undefined
  end.

(** [regcomp(ot, pattern, REG_EXTENDED)] with [ot = array + idx]; its
    result is 0, or a non-zero error code (1 here) when the pattern is
    refused. *)
Definition regcomp_at (array : addr) (idx : nat) (pattern : string) : M Z :=
  slots ← load_slots array;
  match slots !! idx with
  | None => undefined
  | Some _ =>
      match regcomp pattern with
      | Some r => store array (Regexs (<[idx := Some r]> slots));; mret 0
      | None => mret 1
      end
  end.

(** [regexec(ot, input, 0, 0, 0)] with [ot = array + idx]. *)
Definition regexec_at (array : addr) (idx : nat) (input : string) : M Z :=
  slots ← load_slots array;
  match slots !! idx with
  | Some (Some r) => mret (regexec r input)
  | _ => undefined
  end.

(** [regfree(ot)] with [ot = array + idx]. *)
Definition regfree_at (array : addr) (idx : nat) : M unit :=
  slots ← load_slots array;
  match slots !! idx with
  | Some (Some r) =>
      store array (Regexs (<[idx := None]> slots));;
      record (ev_regfree array idx)
  | _ => undefined
  end.

(** ** The functions of filter.c *)

(** [static int match(regex_list_t const * prepared, char const * input)].
    Nothing writes [*prepared] during the loop, so its members are read once;
    [todo] is [prepared->length - idx]. *)
Fixpoint match_loop (array : member addr) (input : string) (todo idx : nat) : M Z :=
  match todo with
  | O => mret 0
  | S todo' =>
      ot ← read array;
      r ← regexec_at ot idx input;
      if decide (0 = r) then mret 1
      else match_loop array input todo' (S idx)
  end.

Definition match_ (prepared : regex_list_ptr) (input : string) : M Z :=
  record (ev_match prepared input);;
  l ← load_list prepared;
  n ← read (length l);
  match_loop (regexs l) input n 0.

(** [static void release(regex_list_t * prepared)] *)
Fixpoint release_loop (array : member addr) (todo idx : nat) : M unit :=
  match todo with
  | O => mret ()
  | S todo' =>
      ot ← read array;
      regfree_at ot idx;;
      release_loop array todo' (S idx)
  end.

Definition release (prepared : regex_list_ptr) : M unit :=
  l ← load_list prepared;
  n ← read (length l);
  release_loop (regexs l) n 0;;
  p ← read (regexs l);
  free p.

(** [static void compile(config_setting_t const * array, regex_list_t * prepared)] *)
Fixpoint compile_loop (array : config_setting_t) (ot : addr) (todo idx : nat)
  : M unit :=
  match todo with
  | O => mret ()
  | S todo' =>
      match config_setting_get_string_elem array idx with
      | None => undefined
      | Some it =>
          result ← regcomp_at ot idx it;
          if decide (0 ≠ result) then exit EXIT_FAILURE
          else compile_loop array ot todo' (S idx)
      end
  end.

Definition compile (array : config_setting_t) (prepared : regex_list_ptr) : M unit :=
  l ← load_list prepared;
  let n := config_setting_length array in
  store_list prepared {| length := Stored n; regexs := regexs l |};;
  if decide (0%nat = n) then mret ()
  else
    a ← malloc (Regexs (replicate n None));
    l ← load_list prepared;
    store_list prepared {| length := length l; regexs := Stored a |};;
    compile_loop array a n 0.

(** [static config_setting_t const * get_setting(config, name)] *)
Definition get_setting (config : config_setting_t) (name : string)
  : M config_setting_t :=
  match config_setting_get_member config name with
  | None => exit EXIT_FAILURE
  | Some result =>
      if config_setting_is_array result then mret result
      else exit EXIT_FAILURE
  end.

(** [static char const * fix_path(char const * file, char const * cwd)]:
    [strdup] of an absolute file, [asprintf("%s/%s", cwd, file)] otherwise. *)
Definition fix_path (file cwd : string) : M addr :=
  match file with
  | String "/"%char _ => malloc (Chars file)
  | _ => malloc (Chars (cwd +:+ "/" +:+ file))
  end.

Definition uninitialised : bear_output_filter_t :=
  let l := {| length := Indeterminate; regexs := Indeterminate |} in
  {| compilers := l; source_files := l; cancel_parameters := l |}.

(** [bear_output_filter_t * bear_filter_create(config_t const * config)] *)
Definition bear_filter_create (config : config_t) : M addr :=
  filter ← malloc (Filter uninitialised);
  match config_lookup config "filter" with
  | None => exit EXIT_FAILURE
  | Some group =>
      a ← get_setting group "compilers";
      compile a (filter, Compilers);;
      a ← get_setting group "source_files";
      compile a (filter, Source_files);;
      a ← get_setting group "cancel_parameters";
      compile a (filter, Cancel_parameters);;
      mret filter
  end.

(** [bear_output_filter_t * bear_filter_read_from_file(char const * file)].
    [config_read_file] is libconfig's reader: the configuration the file
    parses to, or [None] ([CONFIG_FALSE]) when it cannot be read or parsed. *)
Definition bear_filter_read_from_file
    (config_read_file : string → option config_t) (file : string) : M addr :=
  match config_read_file file with
  | None => exit EXIT_FAILURE
  | Some config =>
      result ← bear_filter_create config;
      mret result
  end.

(** [void bear_filter_delete(bear_output_filter_t * filter)] *)
Definition bear_filter_delete (filter : addr) : M unit :=
  release (filter, Compilers);;
  release (filter, Source_files);;
  release (filter, Cancel_parameters);;
  free filter.

(** One pass of the loop body of [bear_filter_source_file] on the argument
    [*it], with the current [result]; it says whether the loop goes on. *)
Inductive control := Continue | Break.

Definition scan_arg (filter : addr) (e : bear_message_t) (arg : string)
    (result : option addr) : M (control * option addr) :=
  is_source ←
    match result with
    | None => match_ (filter, Source_files) arg
    | Some _ => mret 0
    end;
  if decide (is_source ≠ 0) then
    r ← fix_path arg (cwd e);
    mret (Continue, Some r)
  else
    is_cancel ← match_ (filter, Cancel_parameters) arg;
    if decide (is_cancel ≠ 0) then
      match result with
      | Some p => free p
      | None => mret ()
      end;;
      mret (Break, None)
    else mret (Continue, result).

(** [for (; *it; ++it)] *)
Fixpoint scan (filter : addr) (e : bear_message_t) (it : list string)
    (result : option addr) : M (option addr) :=
  match it with
  | [] => mret result
  | arg :: it' =>
      '(c, result') ← scan_arg filter e arg result;
      match c with
      | Break => mret result'
      | Continue => scan filter e it' result'
      end
  end.

(** [char const * bear_filter_source_file(filter, e)] *)
Definition bear_filter_source_file (filter : addr) (e : bear_message_t)
  : M (option addr) :=
  match cmd e with
  | Some ((arg0 :: _) as argv) =>
      is_compiler ← match_ (filter, Compilers) arg0;
      if decide (is_compiler ≠ 0) then scan filter e argv None
      else mret None
  | _ => mret None
  end.

(** The string a verdict points to: [None] is the "no source file" verdict. *)
Definition verdict (st : state) (result : option addr) : option string :=
  match result with
  | None => None
  | Some p =>
      match heap st !! p with
      | Some (Chars s) => Some s
      | _ => None
      end
  end.

End Machine.

Arguments Ret {_ A} a st.
Arguments Exit {_ A} status.
Arguments Undefined {_ A}.

(** ** An executable instance of the regex interface

    A fragment of POSIX extended regular expressions (characters, [\]-escapes,
    [.], the anchors [^] and [$], alternation and the postfix operators
    [*], [+], [?]; no groups, bracket expressions or intervals), enough to run
    the functions above on concrete configurations. *)
Module Posix.

Inductive re :=
  | Eps
  | Chr (c : ascii)
  | Any
  | Bol
  | Eol
  | Seq (r1 r2 : re)
  | Alt (r1 r2 : re)
  | Star (r : re).

(** [accept r bol s k]: [r] matches a prefix of [s] ([bol] says whether [s]
    starts the input) and [k] accepts what is left. *)
Fixpoint accept (r : re) (bol : bool) (s : string) (k : bool → string → bool)
  : bool :=
  match r with
  | Eps => k bol s
  | Chr c =>
      match s with
      | String c' s' => if decide (c = c') then k false s' else false
      | EmptyString => false
      end
  | Any =>
      match s with
      | String _ s' => k false s'
      | EmptyString => false
      end
  | Bol => bol && k bol s
  | Eol =>
      match s with
      | EmptyString => k bol s
      | String _ _ => false
      end
  | Seq r1 r2 => accept r1 bol s (λ b s', accept r2 b s' k)
  | Alt r1 r2 => accept r1 bol s k || accept r2 bol s k
  | Star r1 =>
      (fix star (n : nat) (bol : bool) (s : string) : bool :=
         k bol s ||
         match n with
         | O => false
         | S n' =>
             accept r1 bol s (λ b s',
               if decide (String.length s' < String.length s)%nat
               then star n' b s' else false)
         end) (String.length s) bol s
  end.

(** A match may start at any position of the input. *)
Fixpoint search (r : re) (bol : bool) (s : string) : bool :=
  accept r bol s (λ _ _, true) ||
  match s with
  | String _ s' => search r false s'
  | EmptyString => false
  end.

Definition REG_NOMATCH : Z := 1.

Definition exec (r : re) (input : string) : Z :=
  if search r true input then 0 else REG_NOMATCH.

Definition seq_of (atoms : list re) : re := foldr Seq Eps atoms.

Definition alt_of (first : re) (branches : list re) : re :=
  foldl Alt first branches.

(** [parse pattern atoms branches]: [atoms] are the atoms of the current
    branch and [branches] the finished ones, both newest first. *)
Fixpoint parse (pattern : string) (atoms branches : list re) : option re :=
  match pattern with
  | EmptyString =>
      match reverse (seq_of (reverse atoms) :: branches) with
      | [] => None
      | first :: rest => Some (alt_of first rest)
      end
  | String c rest =>
      let postfix (f : re → re) :=
        match atoms with
        | [] => None
        | a :: atoms' => parse rest (f a :: atoms') branches
        end in
      if decide (c = "\"%char) then
        match rest with
        | String c' rest' => parse rest' (Chr c' :: atoms) branches
        | EmptyString => None
        end
      else if decide (c = "."%char) then parse rest (Any :: atoms) branches
      else if decide (c = "^"%char) then parse rest (Bol :: atoms) branches
      else if decide (c = "$"%char) then parse rest (Eol :: atoms) branches
      else if decide (c = "*"%char) then postfix Star
      else if decide (c = "+"%char) then postfix (λ a, Seq a (Star a))
      else if decide (c = "?"%char) then postfix (λ a, Alt a Eps)
      else if decide (c = "|"%char) then
        parse rest [] (seq_of (reverse atoms) :: branches)
      else if decide (c ∈ ["("; ")"; "["; "]"; "{"; "}"]%char) then None
      else parse rest (Chr c :: atoms) branches
  end.

Definition comp (pattern : string) : option re := parse pattern [] [].

Definition lib : RegexLib :=
  {| regex_t := re; regcomp := comp; regexec := exec |}.

End Posix.


(** ** Worked configurations *)

Definition empty_state `{RegexLib} : state := {| heap := ∅; trace := [] |}.

Definition strings (patterns : list string) : config_setting_t :=
  config_array (config_string <$> patterns).

Definition filter_group (cs sfs cps : list string) : config_setting_t :=
  config_group
    [("compilers", strings cs);
     ("source_files", strings sfs);
     ("cancel_parameters", strings cps)].

Definition filter_config (cs sfs cps : list string) : config_t :=
  config_group [("filter", filter_group cs sfs cps)].

Definition invocation (dir : string) (args : list string) : bear_message_t :=
  {| cwd := dir; cmd := Some args |}.

(** The configuration of the specification's end-to-end scenarios. *)
Definition gcc_config : config_t := filter_config ["^gcc$"] ["\.c$"] ["^-E$"].

(** Build the filter of [config] from the empty heap and classify [e]:
    the verdict, when both calls return. *)
Definition run (config : config_t) (e : bear_message_t)
  : option (option string) :=
  match (filter ← bear_filter_create (H := Posix.lib) config;
         bear_filter_source_file filter e) empty_state with
  | Ret result st => Some (verdict st result)
  | _ => None
  end.

Definition state_after `{RegexLib} {A} (o : outcome A) : state :=
  match o with
  | Ret _ st => st
  | _ => empty_state
  end.

(** The heap [bear_filter_create] leaves when run on [config] from the empty
    heap; the filter is then at address 1. *)
Definition built (config : config_t) : state (H := Posix.lib) :=
  state_after (bear_filter_create config empty_state).

Definition pat (pattern : string) : Posix.re :=
  default Posix.Eps (Posix.comp pattern).

Definition gcc_state : state (H := Posix.lib) :=
  Eval vm_compute in built gcc_config.

(** A program name that also matches [source_files]. *)
Definition cc_config : config_t := filter_config ["^cc$"] ["c$"] [].

Definition cc_state : state (H := Posix.lib) :=
  Eval vm_compute in built cc_config.

(** Dependency options cancel; one of them names a file ending in [.c]. *)
Definition deps_config : config_t := filter_config ["^gcc$"] ["\.c$"] ["^-M"].

Definition deps_state : state (H := Posix.lib) :=
  Eval vm_compute in built deps_config.


(** The same three sets as [gcc_config], with patterns repeated. *)
Definition twice_config : config_t :=
  filter_config ["^gcc$"; "^gcc$"] ["\.c$"] ["^-E$"; "^-E$"].

Definition twice_state : state (H := Posix.lib) :=
  Eval vm_compute in built twice_config.

(** A pattern that [regcomp] refuses, and a group without [source_files]. *)
Definition refused_config : config_t := filter_config ["^gcc$"] ["("] [].

Definition partial_config : config_t :=
  config_group [("filter", config_group [("compilers", strings ["^gcc$"])])].

(** A file system with one configuration file. *)
Definition bear_conf (file : string) : option config_t :=
  if decide (file = "bear.conf") then Some gcc_config else None.

(** The state [bear_filter_delete] leaves of [gcc_state]. *)
Definition deleted_state : state (H := Posix.lib) :=
  Eval vm_compute in state_after (bear_filter_delete 1%positive gcc_state).

(** ** Vocabulary of the properties *)

Section Vocabulary.
Context `{RegexLib}.

(** Some pattern of the set matches somewhere within the input. *)
Definition matches (rs : list regex_t) (input : string) : Prop :=
  Exists (λ r, regexec r input = 0) rs.

Global Instance matches_dec rs input : Decision (matches rs input).
Proof. unfold matches. apply _. Defined.

(** The pattern list [l] is a compiled set of the patterns [rs] in the heap
    [h]: its length is theirs and, unless it is empty, its array holds them. *)
Definition holds (h : gmap addr block) (l : regex_list_t) (rs : list regex_t)
  : Prop :=
  length l = Stored (List.length rs) ∧
  (rs = [] ∨ ∃ a, regexs l = Stored a ∧ h !! a = Some (Regexs (Some <$> rs))).

(** A constructed filter lives at [filter], with these three pattern sets. *)
Definition filter_at (h : gmap addr block) (filter : addr)
    (cs sfs cps : list regex_t) : Prop :=
  ∃ f, h !! filter = Some (Filter f) ∧
       holds h (compilers f) cs ∧
       holds h (source_files f) sfs ∧
       holds h (cancel_parameters f) cps.

Definition patterns_of (fld : field) (cs sfs cps : list regex_t) : list regex_t :=
  match fld with
  | Compilers => cs
  | Source_files => sfs
  | Cancel_parameters => cps
  end.

(** [regcomp] accepts every pattern of [ps], giving [rs]. *)
Definition compiles (ps : list string) (rs : list regex_t) : Prop :=
  Forall2 (λ p r, regcomp p = Some r) ps rs.

(** The value [match] computes. *)
Definition match_value (rs : list regex_t) (input : string) : Z :=
  if decide (matches rs input) then 1 else 0.

(** The cwd rule: an absolute file as it is, any other below [cwd]. *)
Definition resolve (file cwd : string) : string :=
  if decide (String.get 0 file = Some "/"%char) then file
  else cwd +:+ "/" +:+ file.

(** The inputs of the [match] calls of a trace. *)
Definition consulted (tr : list event) : list string :=
  omap (λ ev, match ev with ev_match _ input => Some input | _ => None end) tr.

Definition log (st : state) (evs : list event) : state :=
  {| heap := heap st; trace := trace st ++ evs |}.

(** The heap apart from the block of the candidate, if there is one. *)
Definition without (result : option addr) (h : gmap addr block)
  : gmap addr block :=
  match result with
  | Some p => delete p h
  | None => h
  end.

(** What the scan relies on: the filter, and a candidate that is a live
    string apart from the filter's blocks. *)
Definition candidate_ok (h : gmap addr block) (filter : addr)
    (cs sfs cps : list regex_t) (result : option addr) : Prop :=
  filter_at (without result h) filter cs sfs cps ∧
  match result with
  | Some p => ∃ s, h !! p = Some (Chars s)
  | None => True
  end.

(** The checks one pass of the loop makes before its cancel check. *)
Definition source_check (filter : addr) (result : option addr) (arg : string)
  : list event :=
  match result with
  | None => [ev_match (filter, Source_files) arg]
  | Some _ => []
  end.

Definition release_candidate (result : option addr) : list event :=
  match result with
  | Some p => [ev_free p]
  | None => []
  end.

(** The verdict of the scan as a function of the pattern sets: [cand] is the
    string of the candidate so far. *)
Fixpoint scan_verdict (sfs cps : list regex_t) (cwd : string)
    (it : list string) (cand : option string) : option string :=
  match it with
  | [] => cand
  | arg :: it' =>
      if decide (cand = None ∧ matches sfs arg)
      then scan_verdict sfs cps cwd it' (Some (resolve arg cwd))
      else if decide (matches cps arg) then None
      else scan_verdict sfs cps cwd it' cand
  end.

Definition classify (cs sfs cps : list regex_t) (e : bear_message_t)
  : option string :=
  match cmd e with
  | Some ((arg0 :: _) as argv) =>
      if decide (matches cs arg0)
      then scan_verdict sfs cps (cwd e) argv None
      else None
  | _ => None
  end.

(** The check of the program name, when there is one. *)
Definition compiler_check (filter : addr) (e : bear_message_t) : list event :=
  match cmd e with
  | Some (arg0 :: _) => [ev_match (filter, Compilers) arg0]
  | _ => []
  end.

Definition argv (e : bear_message_t) : list string := default [] (cmd e).

(** The name of a pattern list in the configuration. *)
Definition member_name (fld : field) : string :=
  match fld with
  | Compilers => "compilers"
  | Source_files => "source_files"
  | Cancel_parameters => "cancel_parameters"
  end.

(** [config] has a [filter] group whose three members are the arrays of the
    pattern strings [ps_c], [ps_s] and [ps_p]. *)
Definition configures (config : config_t) (ps_c ps_s ps_p : list string)
  : Prop :=
  ∃ group,
    config_lookup config "filter" = Some group ∧
    config_setting_get_member group "compilers" = Some (strings ps_c) ∧
    config_setting_get_member group "source_files" = Some (strings ps_s) ∧
    config_setting_get_member group "cancel_parameters" = Some (strings ps_p).

(** The calls that release an array of [n] compiled patterns. *)
Definition released (a : addr) (n : nat) : list event :=
  (ev_regfree a <$> seq 0 n) ++ [ev_free a].

(** What [compile] makes of a pattern list and of the heap when [regcomp]
    gives the patterns [rs]: an array is allocated only for a list that is
    not empty, and the pointer of an empty list stays as it was. *)
Definition compiled_list (h : gmap addr block) (l : regex_list_t)
    (rs : list regex_t) : regex_list_t :=
  match rs with
  | [] => {| length := Stored 0%nat; regexs := regexs l |}
  | _ => {| length := Stored (List.length rs); regexs := Stored (fresh (dom h)) |}
  end.

Definition compiled_heap (h : gmap addr block) (rs : list regex_t)
  : gmap addr block :=
  match rs with
  | [] => h
  | _ => <[fresh (dom h) := Regexs (Some <$> rs)]> h
  end.

Definition compile_heap (h : gmap addr block) (filter : addr) (fld : field)
    (rs : list regex_t) : gmap addr block :=
  match h !! filter with
  | Some (Filter f) =>
      <[filter := Filter (set_field fld
                            (compiled_list h (get_field fld f) rs) f)]>
        (compiled_heap h rs)
  | _ => h
  end.

(** The heap [bear_filter_create] builds over [h]. *)
Definition created_heap (h : gmap addr block) (cs sfs cps : list regex_t)
  : gmap addr block :=
  let filter := fresh (dom h) in
  compile_heap
    (compile_heap
       (compile_heap (<[filter := Filter uninitialised]> h) filter Compilers cs)
       filter Source_files sfs)
    filter Cancel_parameters cps.

(** The order in which [bear_filter_create] reads the three members. *)
Definition earlier (fld' fld : field) : Prop :=
  match fld', fld with
  | Compilers, Source_files
  | Compilers, Cancel_parameters
  | Source_files, Cancel_parameters => True
  | _, _ => False
  end.

(** The group has no member for [fld], or one that is not an array. *)
Definition faulty (group : config_setting_t) (fld : field) : Prop :=
  match config_setting_get_member group (member_name fld) with
  | None => True
  | Some setting => config_setting_is_array setting = false
  end.

End Vocabulary.

(** ** Properties *)

Section Properties.
Context `{RegexLib}.

Implicit Types (st : state) (h : gmap addr block) (rs cs sfs cps : list regex_t).
Implicit Types (input arg file : string) (filter : addr) (e : bear_message_t).

Lemma bind_Ret {A B} (m : M A) (f : A → M B) st a st' :
  m st = Ret a st' → (m ≫= f) st = f a st'.
Proof. unfold mbind, M_bind. by intros ->. Qed.

Lemma log_nil st : log st [] = st.
Proof. destruct st. unfold log. simpl. by rewrite app_nil_r. Qed.

Lemma log_log st evs evs' : log (log st evs) evs' = log st (evs ++ evs').
Proof. unfold log. simpl. by rewrite app_assoc. Qed.

Lemma matches_nil input : ¬ matches [] input.
Proof. unfold matches. intros Hm. inversion Hm. Qed.

Lemma matches_cons r rs input :
  matches (r :: rs) input ↔ regexec r input = 0 ∨ matches rs input.
Proof. unfold matches. apply Exists_cons. Qed.

Lemma match_loop_spec st a pre post input :
  heap st !! a = Some (Regexs (Some <$> (pre ++ post))) →
  match_loop (Stored a) input (List.length post) (List.length pre) st
  = Ret (match_value post input) st.
Proof.
  revert pre. induction post as [|r post IH]; intros pre Ha; simpl.
  - unfold match_value, mret, M_ret. rewrite decide_False; [done | apply matches_nil].
  - unfold regexec_at, load_slots, load, mbind, M_bind, mret, M_ret. simpl.
    rewrite Ha. simpl.
    rewrite list_lookup_fmap, list_lookup_middle by done. simpl.
    unfold match_value.
    destruct (decide (0 = regexec r input)) as [Hr|Hr].
    + rewrite decide_True; [done | apply matches_cons; auto].
    + specialize (IH (pre ++ [r])).
      rewrite length_app, Nat.add_1_r, <- app_assoc in IH. simpl in IH.
      rewrite IH by done. unfold match_value.
      destruct (decide (matches post input)) as [Hm|Hm].
      * rewrite decide_True; [done | apply matches_cons; auto].
      * rewrite decide_False; [done |]. rewrite matches_cons. intros [?|?]; auto.
Qed.

Lemma holds_mono h h' l rs : h ⊆ h' → holds h l rs → holds h' l rs.
Proof.
  intros Hsub [Hlen Harr]. split; [done |].
  destruct Harr as [->|(a & Ha & Hh)]; [by left | right].
  exists a. split; [done |]. by eapply lookup_weaken.
Qed.

Lemma filter_at_mono h h' filter cs sfs cps :
  h ⊆ h' → filter_at h filter cs sfs cps → filter_at h' filter cs sfs cps.
Proof.
  intros Hsub (f & Hf & Hc & Hs & Hp). exists f.
  split; [by eapply lookup_weaken |].
  repeat split; by eapply holds_mono.
Qed.

Lemma filter_at_field h filter cs sfs cps fld :
  filter_at h filter cs sfs cps →
  ∃ f, h !! filter = Some (Filter f) ∧
       holds h (get_field fld f) (patterns_of fld cs sfs cps).
Proof. intros (f & Hf & Hc & Hs & Hp). exists f. by destruct fld. Qed.

Lemma match_holds st filter fld f rs input :
  heap st !! filter = Some (Filter f) →
  holds (heap st) (get_field fld f) rs →
  match_ (filter, fld) input st
  = Ret (match_value rs input) (log st [ev_match (filter, fld) input]).
Proof.
  intros Hf [Hlen Harr].
  unfold match_, record, load_list, load, mbind, M_bind, mret, M_ret. simpl.
  rewrite Hf. simpl. rewrite Hlen. simpl.
  destruct Harr as [->|(a & Ha & Hh)]; [done |].
  rewrite Ha. by apply (match_loop_spec (log st _) a []).
Qed.

Lemma match_spec st filter fld cs sfs cps input :
  filter_at (heap st) filter cs sfs cps →
  match_ (filter, fld) input st
  = Ret (match_value (patterns_of fld cs sfs cps) input)
        (log st [ev_match (filter, fld) input]).
Proof.
  intros Hfilter.
  destruct (filter_at_field _ _ _ _ _ fld Hfilter) as (f & Hf & Hh).
  by eapply match_holds.
Qed.

Lemma fix_path_spec file cwd st :
  fix_path file cwd st
  = Ret (fresh (dom (heap st)))
        {| heap := <[fresh (dom (heap st)) := Chars (resolve file cwd)]> (heap st);
           trace := trace st |}.
Proof.
  unfold fix_path, resolve. destruct file as [|c file]; [done |].
  simpl. destruct (decide (Some c = Some "/"%char)) as [[= ->]|Hc]; [done |].
  destruct c as [[] [] [] [] [] [] [] []]; try done.
Qed.

Lemma match_value_1 rs input : matches rs input → match_value rs input = 1.
Proof. unfold match_value. intros. by rewrite decide_True. Qed.

Lemma match_value_0 rs input : ¬ matches rs input → match_value rs input = 0.
Proof. unfold match_value. intros. by rewrite decide_False. Qed.

Lemma scan_arg_spec st filter cs sfs cps e arg result :
  candidate_ok (heap st) filter cs sfs cps result →
  scan_arg filter e arg result st =
  if decide (result = None ∧ matches sfs arg) then
    Ret (Continue, Some (fresh (dom (heap st))))
        {| heap := <[fresh (dom (heap st)) := Chars (resolve arg (cwd e))]> (heap st);
           trace := trace st ++ [ev_match (filter, Source_files) arg] |}
  else if decide (matches cps arg) then
    Ret (Break, None)
        {| heap := without result (heap st);
           trace := trace st ++ source_check filter result arg
                      ++ [ev_match (filter, Cancel_parameters) arg]
                      ++ release_candidate result |}
  else
    Ret (Continue, result)
        (log st (source_check filter result arg
                   ++ [ev_match (filter, Cancel_parameters) arg])).
Proof.
  intros [Hfilter Hcand]. unfold scan_arg.
  destruct result as [p|]; simpl in *.
  - destruct (decide (Some p = None ∧ matches sfs arg)) as [[? _]|_]; [done|].
    assert (filter_at (heap st) filter cs sfs cps) as Hfilter'.
    { eapply filter_at_mono; [apply delete_subseteq | done]. }
    unfold mbind at 1, M_bind, mret at 1, M_ret. simpl.
    erewrite bind_Ret by (by eapply (match_spec _ _ Cancel_parameters)).
    simpl. destruct (decide (matches cps arg)) as [Hm|Hm].
    + rewrite match_value_1 by done. simpl.
      destruct Hcand as [s Hp].
      unfold mbind, M_bind, free, mret, M_ret, log. simpl. rewrite Hp.
      by rewrite <- app_assoc.
    + by rewrite match_value_0 by done.
  - erewrite bind_Ret by (by eapply (match_spec _ _ Source_files)).
    simpl. destruct (decide (matches sfs arg)) as [Hs|Hs].
    + rewrite match_value_1 by done. simpl. rewrite decide_True by done.
      erewrite bind_Ret by apply fix_path_spec. done.
    + destruct (decide (None = None ∧ matches sfs arg)) as [[_ ?]|_]; [done|].
      rewrite match_value_0 by done. simpl.
      erewrite bind_Ret by (by eapply (match_spec _ _ Cancel_parameters)).
      simpl. destruct (decide (matches cps arg)) as [Hm|Hm].
      * rewrite match_value_1 by done. simpl.
        unfold log. simpl. by rewrite <- app_assoc.
      * rewrite match_value_0 by done. simpl. by rewrite log_log.
Qed.

Lemma fresh_lookup h : h !! fresh (dom h) = None.
Proof. apply not_elem_of_dom, is_fresh. Qed.

Lemma consulted_app tr tr' : consulted (tr ++ tr') = consulted tr ++ consulted tr'.
Proof. apply omap_app. Qed.

Lemma consulted_source_check filter result arg :
  consulted (source_check filter result arg) ⊆ [arg].
Proof. destruct result; simpl; set_solver. Qed.

Lemma consulted_release_candidate result :
  consulted (release_candidate result) = [].
Proof. by destruct result. Qed.

Lemma verdict_candidate st filter cs sfs cps p :
  candidate_ok (heap st) filter cs sfs cps (Some p) →
  ∃ s, verdict st (Some p) = Some s.
Proof. intros [_ [s Hs]]. exists s. simpl. by rewrite Hs. Qed.

(** The scan returns; the only block it may add or take away is the
    candidate's; its verdict is [scan_verdict]; it consults arguments of
    [it] only. *)
Lemma scan_spec filter cs sfs cps e it : ∀ st result,
  candidate_ok (heap st) filter cs sfs cps result →
  ∃ v st' tr,
    scan filter e it result st = Ret v st' ∧
    candidate_ok (heap st') filter cs sfs cps v ∧
    without v (heap st') = without result (heap st) ∧
    verdict st' v = scan_verdict sfs cps (cwd e) it (verdict st result) ∧
    trace st' = trace st ++ tr ∧
    consulted tr ⊆ it.
Proof.
  induction it as [|arg it IH]; intros st result Hok.
  - exists result, st, []. simpl. rewrite app_nil_r. split_and!; try done.
  - simpl. unfold mbind at 1, M_bind at 1.
    rewrite (scan_arg_spec st filter cs sfs cps e arg result Hok).
    destruct result as [p|].
    + destruct (verdict_candidate _ _ _ _ _ _ Hok) as [s Hs]. rewrite Hs.
      rewrite !(decide_False (P := _ = None ∧ _)) by (by intros [? _]).
      destruct (decide (matches cps arg)) as [Hm|Hm].
      * eexists None, _, _. simpl. split; [done |].
        destruct Hok as [Hf _]. split_and!; try done.
        simpl. set_solver.
      * destruct (IH (log st [ev_match (filter, Cancel_parameters) arg])
                     (Some p) Hok) as (v & st' & tr & Hrun & Hok' & Hh & Hv & Htr & Hc).
        exists v, st', (ev_match (filter, Cancel_parameters) arg :: tr).
        simpl in *. rewrite Hs in Hv.
        split_and!; try done.
        -- by rewrite Htr, <- app_assoc.
        -- set_solver.
    + simpl. destruct (decide (matches sfs arg)) as [Hs|Hs].
      * rewrite !decide_True by done.
        set (p := fresh (dom (heap st))).
        set (st1 := {| heap := <[p := Chars (resolve arg (cwd e))]> (heap st);
                       trace := trace st ++ [ev_match (filter, Source_files) arg] |}).
        assert (heap st !! p = None) as Hp by apply fresh_lookup.
        assert (candidate_ok (heap st1) filter cs sfs cps (Some p)) as Hok1.
        { split; simpl.
          - rewrite delete_insert_id by done. apply Hok.
          - eexists. apply lookup_insert_eq. }
        destruct (IH st1 (Some p) Hok1)
          as (v & st' & tr & Hrun & Hok' & Hh & Hv & Htr & Hc).
        exists v, st', (ev_match (filter, Source_files) arg :: tr).
        simpl in Hv. rewrite lookup_insert_eq in Hv.
        split_and!; try done.
        -- rewrite Hh. simpl. by rewrite delete_insert_id.
        -- rewrite Htr. simpl. by rewrite <- app_assoc.
        -- set_solver.
      * rewrite !(decide_False (P := _ = None ∧ _)) by (by intros [_ ?]).
        destruct (decide (matches cps arg)) as [Hm|Hm].
        -- eexists None, _, _. simpl. split; [done |].
           split_and!; try done. simpl. set_solver.
        -- destruct (IH (log st [ev_match (filter, Source_files) arg;
                                 ev_match (filter, Cancel_parameters) arg])
                        None Hok) as (v & st' & tr & Hrun & Hok' & Hh & Hv & Htr & Hc).
           exists v, st', (ev_match (filter, Source_files) arg
                           :: ev_match (filter, Cancel_parameters) arg :: tr).
           split_and!; try done.
           ++ rewrite Htr. simpl. by rewrite <- app_assoc.
           ++ set_solver.
Qed.

(** *** The verdict as a function of the arguments *)

Lemma scan_verdict_cons_some sfs cps cwd arg it s :
  scan_verdict sfs cps cwd (arg :: it) (Some s)
  = if decide (matches cps arg) then None
    else scan_verdict sfs cps cwd it (Some s).
Proof. done. Qed.

Lemma scan_verdict_cons_none sfs cps cwd arg it :
  scan_verdict sfs cps cwd (arg :: it) None
  = if decide (matches sfs arg)
    then scan_verdict sfs cps cwd it (Some (resolve arg cwd))
    else if decide (matches cps arg) then None
    else scan_verdict sfs cps cwd it None.
Proof.
  simpl. destruct (decide (matches sfs arg)).
  - by rewrite (decide_True (P := None = None ∧ _)).
  - by rewrite (decide_False (P := None = None ∧ _)) by (by intros [_ ?]).
Qed.

Lemma scan_verdict_candidate_kept sfs cps cwd it s :
  Forall (λ x, ¬ matches cps x) it →
  scan_verdict sfs cps cwd it (Some s) = Some s.
Proof.
  induction 1 as [|arg it Hc _ IH]; [done |].
  rewrite scan_verdict_cons_some. by rewrite decide_False.
Qed.

Lemma scan_verdict_candidate_inv sfs cps cwd it s0 s :
  scan_verdict sfs cps cwd it (Some s0) = Some s →
  s = s0 ∧ Forall (λ x, ¬ matches cps x) it.
Proof.
  induction it as [|arg it IH].
  - simpl. by intros [= ->].
  - rewrite scan_verdict_cons_some. case_decide; [done |].
    intros [-> ?]%IH. by split; [| constructor].
Qed.

Lemma scan_verdict_first sfs cps cwd pre a post :
  Forall (λ x, ¬ matches sfs x ∧ ¬ matches cps x) pre →
  matches sfs a →
  Forall (λ x, ¬ matches cps x) post →
  scan_verdict sfs cps cwd (pre ++ a :: post) None = Some (resolve a cwd).
Proof.
  intros Hpre Ha Hpost. induction Hpre as [|arg pre [Hs Hc] _ IH].
  - simpl. rewrite decide_True by done. by apply scan_verdict_candidate_kept.
  - rewrite <- app_comm_cons, scan_verdict_cons_none.
    by rewrite !decide_False.
Qed.

Lemma scan_verdict_inv sfs cps cwd it s :
  scan_verdict sfs cps cwd it None = Some s →
  ∃ pre a post,
    it = pre ++ a :: post ∧ matches sfs a ∧ s = resolve a cwd ∧
    Forall (λ x, ¬ matches sfs x ∧ ¬ matches cps x) pre ∧
    Forall (λ x, ¬ matches cps x) post.
Proof.
  induction it as [|arg it IH]; [done |].
  rewrite scan_verdict_cons_none.
  destruct (decide (matches sfs arg)) as [Hs|Hs].
  - intros [-> Hpost]%scan_verdict_candidate_inv.
    by exists [], arg, it.
  - case_decide as Hc; [done |].
    intros (pre & a & post & -> & Ha & -> & Hpre & Hpost)%IH.
    exists (arg :: pre), a, post. split_and!; try done. by constructor.
Qed.

(** *** The whole call *)

Lemma bear_filter_source_file_spec st filter cs sfs cps e :
  filter_at (heap st) filter cs sfs cps →
  ∃ v st' tr,
    bear_filter_source_file filter e st = Ret v st' ∧
    candidate_ok (heap st') filter cs sfs cps v ∧
    without v (heap st') = heap st ∧
    verdict st' v = classify cs sfs cps e ∧
    trace st' = trace st ++ tr ∧
    consulted tr ⊆ argv e.
Proof.
  intros Hfilter. unfold bear_filter_source_file, classify, argv.
  assert (∃ v st' tr, Ret (A := option addr) None st = Ret v st' ∧
            candidate_ok (heap st') filter cs sfs cps v ∧
            without v (heap st') = heap st ∧ verdict st' v = None ∧
            trace st' = trace st ++ tr ∧ consulted tr ⊆ []) as Hnone.
  { exists None, st, []. rewrite app_nil_r. by split_and!. }
  destruct (cmd e) as [[|arg0 rest]|]; simpl;
    [ destruct Hnone as (v & st' & tr & ? & ? & ? & ? & ? & ?);
      by exists v, st', tr .. | | by apply Hnone ].
  erewrite bind_Ret by (by eapply (match_spec _ _ Compilers)). simpl.
  destruct (decide (matches cs arg0)) as [Hc|Hc].
  - rewrite match_value_1 by done. simpl.
    destruct (scan_spec filter cs sfs cps e (arg0 :: rest)
                (log st [ev_match (filter, Compilers) arg0]) None)
      as (v & st' & tr & Hrun & Hok & Hh & Hv & Htr & Hcons); [by split |].
    exists v, st', (ev_match (filter, Compilers) arg0 :: tr).
    split_and!; try done.
    + rewrite Htr. simpl. by rewrite <- app_assoc.
    + simpl. set_solver.
  - rewrite match_value_0 by done. simpl.
    exists None, (log st [ev_match (filter, Compilers) arg0]),
      [ev_match (filter, Compilers) arg0].
    split_and!; try done. simpl. set_solver.
Qed.

(** A cancel match on an argument that does not take the candidate ends the
    loop there: the call is the same whatever follows that argument. *)
Lemma scan_cancelled filter cs sfs cps e a pre : ∀ st result,
  candidate_ok (heap st) filter cs sfs cps result →
  matches cps a →
  (matches sfs a → is_Some result ∨ Exists (matches sfs) pre) →
  ∃ st' tr,
    (∀ post, scan filter e (pre ++ a :: post) result st = Ret None st') ∧
    heap st' = without result (heap st) ∧
    trace st' = trace st ++ tr ∧
    consulted tr ⊆ pre ++ [a].
Proof.
  induction pre as [|arg pre IH]; intros st result Hok Hc Hs.
  - eexists _, _. split; [intros post|]; simpl.
    + unfold mbind at 1, M_bind at 1.
      rewrite (scan_arg_spec st filter cs sfs cps e a result Hok).
      rewrite decide_False, decide_True; [done | done |].
      intros [-> Ha]. destruct (Hs Ha) as [[? [=]]|Hex]. inversion Hex.
    + split_and!; [done | done |]. rewrite !consulted_app. simpl.
      pose proof (consulted_source_check filter result a).
      rewrite consulted_release_candidate. set_solver.
  - destruct (decide (result = None ∧ matches sfs arg)) as [[-> Harg]|Hno].
    + set (p := fresh (dom (heap st))).
      set (st1 := {| heap := <[p := Chars (resolve arg (cwd e))]> (heap st);
                     trace := trace st ++ [ev_match (filter, Source_files) arg] |}).
      assert (heap st !! p = None) as Hp by apply fresh_lookup.
      destruct (IH st1 (Some p)) as (st' & tr & Hrun & Hh & Htr & Hcons).
      { split; simpl.
        - rewrite delete_insert_id by done. apply Hok.
        - eexists. apply lookup_insert_eq. }
      { done. }
      { intros _. left. by eexists. }
      exists st', (ev_match (filter, Source_files) arg :: tr). split_and!.
      * intros post. simpl. unfold mbind at 1, M_bind at 1.
        rewrite (scan_arg_spec st filter cs sfs cps e arg None Hok).
        rewrite decide_True by done. apply Hrun.
      * rewrite Hh. simpl. by rewrite delete_insert_id.
      * rewrite Htr. simpl. by rewrite <- app_assoc.
      * simpl. set_solver.
    + destruct (decide (matches cps arg)) as [Harg|Harg].
      * eexists _, _. split; [intros post|]; simpl.
        -- unfold mbind at 1, M_bind at 1.
           rewrite (scan_arg_spec st filter cs sfs cps e arg result Hok).
           by rewrite decide_False, decide_True.
        -- split_and!; [done | done |]. rewrite !consulted_app. simpl.
           pose proof (consulted_source_check filter result arg).
           rewrite consulted_release_candidate. set_solver.
      * destruct (IH (log st (source_check filter result arg
                                ++ [ev_match (filter, Cancel_parameters) arg]))
                     result) as (st' & tr & Hrun & Hh & Htr & Hcons); [done | done | |].
        { intros Ha. destruct (Hs Ha) as [?|Hex]; [by left |].
          apply Exists_cons in Hex as [Hex|Hex]; [| by right].
          left. destruct result; [by eexists | by destruct Hno]. }
        exists st', ((source_check filter result arg
                      ++ [ev_match (filter, Cancel_parameters) arg]) ++ tr).
        split_and!.
        -- intros post. simpl. unfold mbind at 1, M_bind at 1.
           rewrite (scan_arg_spec st filter cs sfs cps e arg result Hok).
           rewrite !decide_False by done. apply Hrun.
        -- done.
        -- rewrite Htr. simpl. by rewrite <- app_assoc.
        -- rewrite !consulted_app. simpl.
           pose proof (consulted_source_check filter result arg). set_solver.
Qed.

Lemma scan_arg_cwd filter e e' arg result st :
  cwd e = cwd e' →
  scan_arg filter e arg result st = scan_arg filter e' arg result st.
Proof. unfold scan_arg. by intros ->. Qed.

Lemma scan_cwd filter e e' it : ∀ result st,
  cwd e = cwd e' →
  scan filter e it result st = scan filter e' it result st.
Proof.
  induction it as [|arg it IH]; intros result st Hcwd; [done |].
  simpl. unfold mbind, M_bind. rewrite (scan_arg_cwd filter e e') by done.
  destruct (scan_arg filter e' arg result st) as [[[] r] st1| |]; auto.
Qed.

Lemma without_subseteq v h : without v h ⊆ h.
Proof. destruct v; [apply delete_subseteq | done]. Qed.

(** *** Building a filter *)

Lemma compile_loop_spec a ps_todo rs_todo :
  compiles ps_todo rs_todo →
  ∀ ps_done rs_done st,
  List.length ps_done = List.length rs_done →
  heap st !! a
    = Some (Regexs ((Some <$> rs_done) ++ replicate (List.length ps_todo) None)) →
  compile_loop (strings (ps_done ++ ps_todo)) a
    (List.length ps_todo) (List.length ps_done) st
  = Ret () {| heap := <[a := Regexs (Some <$> (rs_done ++ rs_todo))]> (heap st);
              trace := trace st |}.
Proof.
  induction 1 as [|p r ps_todo rs_todo Hp _ IH]; intros ps_done rs_done st Hlen Ha.
  - simpl in *. rewrite !app_nil_r in *. rewrite insert_id by done. by destruct st.
  - cbn [compile_loop List.length].
    unfold strings, config_setting_get_string_elem.
    rewrite list_lookup_fmap. rewrite list_lookup_middle by done.
    cbn [fmap option_fmap option_map].
    unfold regcomp_at, load_slots, load, store, mbind, M_bind, mret, M_ret.
    cbn [List.length replicate] in Ha. rewrite Ha.
    rewrite list_lookup_middle by (by rewrite length_fmap).
    rewrite Hp, Ha. rewrite decide_False by (by intros []).
    specialize (IH (ps_done ++ [p]) (rs_done ++ [r])
      {| heap := <[a := Regexs (<[List.length ps_done := Some r]>
                     ((Some <$> rs_done) ++ None :: replicate (List.length ps_todo) None))]>
                   (heap st);
         trace := trace st |}).
    rewrite !length_app, Nat.add_1_r, <- !app_assoc in IH.
    etrans; [apply IH |].
    + simpl. rewrite Hlen. lia.
    + simpl. rewrite lookup_insert_eq. do 2 f_equal.
      rewrite Hlen, <- (Nat.add_0_r (List.length rs_done)).
      rewrite <- (length_fmap Some rs_done) at 1.
      rewrite insert_app_r. simpl. by rewrite fmap_app, <- app_assoc.
    + simpl. by rewrite insert_insert_eq.
Qed.

Lemma load_list_spec st filter fld f :
  heap st !! filter = Some (Filter f) →
  load_list (filter, fld) st = Ret (get_field fld f) st.
Proof.
  intros Hf. unfold load_list, load, mbind, M_bind. cbn [fst snd].
  by rewrite Hf.
Qed.

Lemma store_list_spec st filter fld f l :
  heap st !! filter = Some (Filter f) →
  store_list (filter, fld) l st
  = Ret () {| heap := <[filter := Filter (set_field fld l f)]> (heap st);
              trace := trace st |}.
Proof.
  intros Hf. unfold store_list, load, store, mbind, M_bind. cbn [fst snd].
  rewrite Hf. by rewrite Hf.
Qed.

Lemma get_set_field fld l f : get_field fld (set_field fld l f) = l.
Proof. by destruct fld. Qed.

Lemma get_set_field_ne fld fld' l f :
  fld' ≠ fld → get_field fld' (set_field fld l f) = get_field fld' f.
Proof. by destruct fld, fld'. Qed.

Lemma set_set_field fld l l' f :
  set_field fld l' (set_field fld l f) = set_field fld l' f.
Proof. by destruct fld. Qed.

Lemma config_setting_length_strings ps :
  config_setting_length (strings ps) = List.length ps.
Proof. unfold strings. simpl. apply length_fmap. Qed.

(** [compile] turns a list of one filter into a compiled set of the
    patterns, and touches nothing else but that list. *)
Lemma compile_spec st filter fld f ps rs :
  heap st !! filter = Some (Filter f) →
  compiles ps rs →
  ∃ f' st',
    compile (strings ps) (filter, fld) st = Ret () st' ∧
    heap st' !! filter = Some (Filter f') ∧
    holds (heap st') (get_field fld f') rs ∧
    (∀ fld', fld' ≠ fld → get_field fld' f' = get_field fld' f) ∧
    (∀ b x, b ≠ filter → heap st !! b = Some x → heap st' !! b = Some x) ∧
    trace st' = trace st.
Proof.
  intros Hf Hps. pose proof (Forall2_length _ _ _ Hps) as Hlen.
  unfold compile. rewrite config_setting_length_strings.
  erewrite bind_Ret by (by apply load_list_spec).
  erewrite bind_Ret by (by apply store_list_spec).
  destruct ps as [|p ps].
  - apply Forall2_nil_inv_l in Hps as ->. cbn [List.length].
    rewrite decide_True by done. eexists _, _. split; [done |].
    cbn [heap trace]. rewrite lookup_insert_eq. split_and!; [done | | | | done].
    + rewrite get_set_field. split; [done | by left].
    + intros fld' Hne. by apply get_set_field_ne.
    + intros b x Hb Hx. by rewrite lookup_insert_ne.
  - rewrite decide_False by done.
    set (n := List.length (p :: ps)) in *.
    set (st1 := {| heap := <[filter := Filter (set_field fld
                     {| length := Stored n; regexs := regexs (get_field fld f) |} f)]>
                     (heap st);
                   trace := trace st |}).
    set (a := fresh (dom (heap st1))).
    assert (heap st1 !! a = None) as Ha by apply fresh_lookup.
    assert (a ≠ filter) as Hne.
    { intros Heq. rewrite Heq in Ha. simpl in Ha. by rewrite lookup_insert_eq in Ha. }
    set (st2 := {| heap := <[a := Regexs (replicate n None)]> (heap st1);
                   trace := trace st1 |}).
    assert (malloc (Regexs (replicate n None)) st1 = Ret a st2) as Hmalloc by done.
    erewrite bind_Ret by done.
    erewrite bind_Ret.
    2:{ apply load_list_spec. simpl. rewrite lookup_insert_ne by done.
        apply lookup_insert_eq. }
    rewrite get_set_field. cbn [length].
    erewrite bind_Ret.
    2:{ apply store_list_spec. simpl. rewrite lookup_insert_ne by done.
        apply lookup_insert_eq. }
    rewrite set_set_field.
    pose proof (compile_loop_spec a (p :: ps) rs Hps [] []) as Hloop.
    cbn [app List.length fmap list_fmap] in Hloop. fold n in Hloop.
    rewrite Hloop; [| done |].
    2:{ simpl. rewrite lookup_insert_ne by done. apply lookup_insert_eq. }
    eexists _, _. split; [done |]. cbn [heap trace].
    rewrite lookup_insert_ne, lookup_insert_eq by done.
    split_and!; [done | | | | done].
    + rewrite get_set_field. split; [simpl; by rewrite <- Hlen |].
      right. exists a. split; [done |]. apply lookup_insert_eq.
    + intros fld' Hne'. by apply get_set_field_ne.
    + intros b x Hb Hx. destruct (decide (b = a)) as [->|Hba].
      * simpl in Ha. rewrite lookup_insert_ne in Ha by done. congruence.
      * subst st2 st1. simpl. by rewrite !lookup_insert_ne.
Qed.

Lemma holds_preserved h h' filter f l rs :
  h !! filter = Some (Filter f) →
  (∀ b x, b ≠ filter → h !! b = Some x → h' !! b = Some x) →
  holds h l rs → holds h' l rs.
Proof.
  intros Hf Hkeep [Hlen Harr]. split; [done |].
  destruct Harr as [->|(a & Ha & Hh)]; [by left | right].
  exists a. split; [done |]. apply Hkeep; [| done]. intros ->. congruence.
Qed.

Lemma get_setting_filter_group ps_c ps_s ps_p fld st :
  get_setting (filter_group ps_c ps_s ps_p)
    match fld with
    | Compilers => "compilers"
    | Source_files => "source_files"
    | Cancel_parameters => "cancel_parameters"
    end st
  = Ret (strings match fld with
                 | Compilers => ps_c
                 | Source_files => ps_s
                 | Cancel_parameters => ps_p
                 end) st.
Proof. by destruct fld. Qed.

(** On a configuration whose three arrays are strings that [regcomp]
    accepts, [bear_filter_create] returns a filter of the three compiled
    sets, leaving the blocks that were live as they were. *)
Lemma bear_filter_create_spec st ps_c ps_s ps_p cs sfs cps :
  compiles ps_c cs → compiles ps_s sfs → compiles ps_p cps →
  ∃ filter st',
    bear_filter_create (filter_config ps_c ps_s ps_p) st = Ret filter st' ∧
    filter_at (heap st') filter cs sfs cps ∧
    heap st ⊆ heap st' ∧
    trace st' = trace st.
Proof.
  intros Hc Hs Hp. unfold bear_filter_create.
  set (filter := fresh (dom (heap st))).
  assert (heap st !! filter = None) as Hfresh by apply fresh_lookup.
  set (st0 := {| heap := <[filter := Filter uninitialised]> (heap st);
                 trace := trace st |}).
  assert (malloc (Filter uninitialised) st = Ret filter st0) as Hmalloc by done.
  erewrite bind_Ret by done.
  change (config_lookup (filter_config ps_c ps_s ps_p) "filter")
    with (Some (filter_group ps_c ps_s ps_p)).
  destruct (compile_spec st0 filter Compilers uninitialised ps_c cs)
    as (f1 & st1 & Hrun1 & Hf1 & Hh1 & Hoth1 & Hkeep1 & Htr1);
    [apply lookup_insert_eq | done |].
  destruct (compile_spec st1 filter Source_files f1 ps_s sfs)
    as (f2 & st2 & Hrun2 & Hf2 & Hh2 & Hoth2 & Hkeep2 & Htr2); [done | done |].
  destruct (compile_spec st2 filter Cancel_parameters f2 ps_p cps)
    as (f3 & st3 & Hrun3 & Hf3 & Hh3 & Hoth3 & Hkeep3 & Htr3); [done | done |].
  erewrite bind_Ret by apply (get_setting_filter_group _ _ _ Compilers).
  erewrite bind_Ret by done.
  erewrite bind_Ret by apply (get_setting_filter_group _ _ _ Source_files).
  erewrite bind_Ret by done.
  erewrite bind_Ret by apply (get_setting_filter_group _ _ _ Cancel_parameters).
  erewrite bind_Ret by done.
  exists filter, st3. split_and!; [done | | | by rewrite Htr3, Htr2, Htr1].
  - exists f3. split_and!; [done | | | done].
    + change (compilers f3) with (get_field Compilers f3).
      rewrite (Hoth3 Compilers), (Hoth2 Compilers) by done.
      apply (holds_preserved (heap st2) (heap st3) filter f2); [done | done |].
      by apply (holds_preserved (heap st1) (heap st2) filter f1).
    + change (source_files f3) with (get_field Source_files f3).
      rewrite (Hoth3 Source_files) by done.
      by apply (holds_preserved (heap st2) (heap st3) filter f2).
  - apply map_subseteq_spec. intros b x Hb.
    assert (b ≠ filter) as Hne by (intros ->; congruence).
    apply Hkeep3, Hkeep2, Hkeep1; try done.
    simpl. by rewrite lookup_insert_ne.
Qed.

(** *** Releasing a pattern set *)

Lemma release_loop_spec a post : ∀ n st,
  heap st !! a = Some (Regexs (replicate n None ++ (Some <$> post))) →
  release_loop (Stored a) (List.length post) n st
  = Ret () {| heap := <[a := Regexs (replicate (n + List.length post) None)]>
                        (heap st);
              trace := trace st ++ (ev_regfree a <$> seq n (List.length post)) |}.
Proof.
  induction post as [|r post IH]; intros n st Ha; simpl.
  - rewrite Nat.add_0_r, !app_nil_r in *. rewrite insert_id by done.
    by destruct st.
  - unfold regfree_at, load_slots, load, store, record, mbind, M_bind, mret, M_ret.
    simpl. rewrite Ha. simpl.
    rewrite list_lookup_middle by (by rewrite length_replicate).
    rewrite Ha. simpl.
    specialize (IH (S n)
      {| heap := <[a := Regexs (<[n := None]>
                     (replicate n None ++ Some r :: (Some <$> post)))]> (heap st);
         trace := trace st ++ [ev_regfree a n] |}).
    etrans; [apply IH |].
    + simpl. rewrite lookup_insert_eq. do 2 f_equal.
      rewrite <- (Nat.add_0_r n) at 1.
      rewrite <- (length_replicate n (@None regex_t)) at 1.
      rewrite insert_app_r. simpl.
      by rewrite app_comm_cons, replicate_cons_app, <- app_assoc.
    + simpl. rewrite insert_insert_eq, <- app_assoc. simpl.
      by rewrite Nat.add_succ_r.
Qed.

(** A set of at least one pattern: [release] frees every compiled pattern
    once, in order, then the array. *)
Lemma release_spec st filter fld f a rs :
  heap st !! filter = Some (Filter f) →
  get_field fld f = {| length := Stored (List.length rs); regexs := Stored a |} →
  heap st !! a = Some (Regexs (Some <$> rs)) →
  release (filter, fld) st
  = Ret () {| heap := delete a (heap st);
              trace := trace st
                         ++ (ev_regfree a <$> seq 0 (List.length rs))
                         ++ [ev_free a] |}.
Proof.
  intros Hf Hfld Ha.
  unfold release, load_list, load, mbind, M_bind, mret, M_ret. simpl.
  rewrite Hf. simpl. rewrite Hfld. simpl.
  rewrite (release_loop_spec a rs 0 st) by done.
  unfold free. simpl. rewrite lookup_insert_eq.
  by rewrite delete_insert_eq, <- app_assoc.
Qed.

(** [compile] on an array of no element writes the length only. *)
Lemma compile_empty st filter fld f :
  heap st !! filter = Some (Filter f) →
  compile (config_array []) (filter, fld) st
  = Ret () {| heap := <[filter := Filter (set_field fld
                          {| length := Stored 0%nat;
                             regexs := regexs (get_field fld f) |} f)]> (heap st);
              trace := trace st |}.
Proof.
  intros Hf.
  unfold compile, load_list, store_list, load, store, mbind, M_bind, mret, M_ret.
  cbn. by repeat (rewrite Hf; cbn).
Qed.

(** [release] on a set whose array pointer was never written. *)
Lemma release_indeterminate st filter fld f :
  heap st !! filter = Some (Filter f) →
  get_field fld f = {| length := Stored 0%nat; regexs := Indeterminate |} →
  release (filter, fld) st = Undefined.
Proof.
  intros Hf Hfld.
  unfold release, load_list, load, mbind, M_bind, mret, M_ret. simpl.
  rewrite Hf. simpl. by rewrite Hfld.
Qed.

(** *** The claims *)

(** C1 (amended). When the first argument matches [compilers] but not
    [source_files], exactly one later argument matches [source_files] and no
    argument matches [cancel_parameters], the call returns that argument
    resolved against the working directory of the invocation. *)
Theorem single_source_file_is_resolved
    st filter cs sfs cps e arg0 pre a post :
  filter_at (heap st) filter cs sfs cps →
  cmd e = Some (arg0 :: pre ++ a :: post) →
  matches cs arg0 →
  ¬ matches sfs arg0 →
  matches sfs a →
  Forall (λ x, ¬ matches sfs x) (pre ++ post) →
  Forall (λ x, ¬ matches cps x) (arg0 :: pre ++ a :: post) →
  ∃ p st',
    bear_filter_source_file filter e st = Ret (Some p) st' ∧
    verdict st' (Some p) = Some (resolve a (cwd e)).
Proof.
  intros Hfilter Hcmd Hc Hs0 Ha Hs Hno.
  destruct (bear_filter_source_file_spec st filter cs sfs cps e Hfilter)
    as (v & st' & tr & Hrun & Hok & _ & Hv & _).
  unfold classify in Hv. rewrite Hcmd, decide_True in Hv by done.
  apply Forall_app in Hs as [Hpre _].
  apply Forall_cons in Hno as [Hc0 [Hcpre [_ Hcpost]%Forall_cons]%Forall_app].
  rewrite app_comm_cons in Hv.
  rewrite (scan_verdict_first sfs cps (cwd e) (arg0 :: pre) a post) in Hv.
  - destruct v as [p|]; [| done]. by exists p, st'.
  - constructor; [done |]. apply Forall_and. by split.
  - done.
  - done.
Qed.

(** C2. When the invocation has no argument, or its first argument matches
    no pattern of [compilers], the call returns the "none" verdict; it makes
    no check but that of the program name and leaves the heap as it was,
    whatever the other two pattern lists of the filter hold (they need not
    even be initialised). *)
Theorem not_a_compiler_call_is_none st filter f cs e :
  (∀ arg0 rest, cmd e = Some (arg0 :: rest) →
     heap st !! filter = Some (Filter f) ∧
     holds (heap st) (compilers f) cs ∧
     ¬ matches cs arg0) →
  bear_filter_source_file filter e st
  = Ret None (log st (compiler_check filter e)).
Proof.
  intros Hno. unfold bear_filter_source_file, compiler_check.
  destruct (cmd e) as [[|arg0 rest]|]; [by rewrite log_nil | | by rewrite log_nil].
  destruct (Hno arg0 rest eq_refl) as (Hf & Hh & Hc).
  erewrite bind_Ret by (by eapply (match_holds _ _ Compilers)).
  by rewrite match_value_0.
Qed.

(** C3 (amended). In a compiler call, a [cancel_parameters] match on an
    argument other than the one taken as the candidate (the first match of
    [source_files]) makes the verdict "none": a candidate taken before is
    freed, so the heap is as before the call, and no argument after that one
    is consulted, the call being the same whatever follows it. *)
Theorem cancel_match_is_none st filter cs sfs cps e arg0 pre a post :
  filter_at (heap st) filter cs sfs cps →
  cmd e = Some (pre ++ a :: post) →
  head (pre ++ [a]) = Some arg0 →
  matches cs arg0 →
  matches cps a →
  (matches sfs a → Exists (matches sfs) pre) →
  ∃ st' tr,
    bear_filter_source_file filter e st = Ret None st' ∧
    heap st' = heap st ∧
    trace st' = trace st ++ tr ∧
    consulted tr ⊆ pre ++ [a] ∧
    ∀ post',
      bear_filter_source_file filter
        {| cwd := cwd e; cmd := Some (pre ++ a :: post') |} st
      = Ret None st'.
Proof.
  intros Hfilter Hcmd Hhead Hc Ha Hs.
  destruct (scan_cancelled filter cs sfs cps e a pre
              (log st [ev_match (filter, Compilers) arg0]) None)
    as (st' & tr & Hrun & Hh & Htr & Hcons); [by split | done | |].
  { intros H'. right. auto. }
  assert (∀ post', bear_filter_source_file filter
            {| cwd := cwd e; cmd := Some (pre ++ a :: post') |} st
          = Ret None st') as Hall.
  { intros post'. unfold bear_filter_source_file. cbn [cmd].
    assert (∃ rest, pre ++ a :: post' = arg0 :: rest) as [rest Hrest].
    { destruct pre; simpl in *; injection Hhead as ->; eauto. }
    rewrite Hrest.
    erewrite bind_Ret by (by eapply (match_spec _ _ Compilers)).
    cbn [patterns_of]. rewrite match_value_1 by done.
    rewrite decide_True by done.
    rewrite <- Hrest at 2. rewrite <- (Hrun post'). by apply scan_cwd. }
  exists st', (ev_match (filter, Compilers) arg0 :: tr). split_and!.
  - rewrite <- (Hall post). unfold bear_filter_source_file. cbn [cmd].
    rewrite Hcmd. destruct (pre ++ a :: post) as [|arg1 rest]; [done |].
    unfold mbind, M_bind. destruct (match_ _ _ _) as [v st1| |]; [| done ..].
    case_decide; [| done]. by apply scan_cwd.
  - done.
  - rewrite Htr. simpl. by rewrite <- app_assoc.
  - simpl. apply head_Some_elem_of in Hhead. set_solver.
  - done.
Qed.

(** C4. In one pass of the loop, [source_files] is checked only while no
    candidate is set, and [cancel_parameters] is checked exactly when the
    candidate branch did not fire.  So an argument that matches
    [source_files] while there is no candidate becomes the candidate and
    does not cancel, whether or not it matches [cancel_parameters]; in every
    other case a [cancel_parameters] match drops the candidate and leaves the
    loop, and without one the candidate stays as it was. *)
Theorem candidate_and_cancel_exclusive st filter cs sfs cps e arg result :
  candidate_ok (heap st) filter cs sfs cps result →
  ∃ c result' st' tr,
    scan_arg filter e arg result st = Ret (c, result') st' ∧
    trace st' = trace st ++ tr ∧
    (ev_match (filter, Source_files) arg ∈ tr ↔ result = None) ∧
    (ev_match (filter, Cancel_parameters) arg ∈ tr
       ↔ ¬ (result = None ∧ matches sfs arg)) ∧
    (result = None ∧ matches sfs arg →
       c = Continue ∧ verdict st' result' = Some (resolve arg (cwd e))) ∧
    (¬ (result = None ∧ matches sfs arg) → matches cps arg →
       c = Break ∧ result' = None) ∧
    (¬ (result = None ∧ matches sfs arg) → ¬ matches cps arg →
       c = Continue ∧ result' = result).
Proof.
  intros Hok. rewrite (scan_arg_spec st filter cs sfs cps e arg result Hok).
  destruct (decide (result = None ∧ matches sfs arg)) as [[-> Hs]|Hno].
  - eexists _, _, _, _. split; [done |]. simpl.
    split_and!; [done | set_solver | set_solver | | by intros [] | by intros []].
    intros _. by rewrite lookup_insert_eq.
  - destruct (decide (matches cps arg)) as [Hc|Hc];
      (eexists _, _, _, _; split; [done |]); simpl;
      (split_and!; [done | | | done ..]);
      destruct result; simpl; set_solver.
Qed.

(** C5. [match] returns 1 exactly when at least one pattern of the set
    matches somewhere within the input (which is what [regexec]'s 0 says),
    and 0 otherwise; on the empty set it returns 0 for every input.  It
    changes no block of the heap. *)
Theorem match_iff_some_pattern st filter fld f rs input :
  heap st !! filter = Some (Filter f) →
  holds (heap st) (get_field fld f) rs →
  ∃ v, match_ (filter, fld) input st
         = Ret v (log st [ev_match (filter, fld) input]) ∧
       (v = 1 ∨ v = 0) ∧
       (v = 1 ↔ ∃ r, r ∈ rs ∧ regexec r input = 0) ∧
       (rs = [] → v = 0).
Proof.
  intros Hf Hh. exists (match_value rs input).
  split; [by eapply match_holds |]. unfold match_value.
  destruct (decide (matches rs input)) as [Hm|Hm].
  - split_and!; [by left | | by intros ->; destruct (matches_nil input)].
    split; [intros _ | done]. by apply Exists_exists in Hm.
  - split_and!; [by right | | done].
    split; [done |]. intros Hex. destruct Hm. by apply Exists_exists.
Qed.

(** C6. [fix_path] returns a new string: a copy of the file when its first
    character is '/', and otherwise the working directory, a '/' and the
    file. *)
Theorem fix_path_absolute_or_below_cwd file cwd st :
  ∃ p st',
    fix_path file cwd st = Ret p st' ∧
    heap st !! p = None ∧
    heap st' = <[p := Chars (if decide (String.get 0 file = Some "/"%char)
                             then file else cwd +:+ "/" +:+ file)]> (heap st) ∧
    trace st' = trace st.
Proof.
  eexists _, _. split; [apply fix_path_spec |].
  split; [apply fresh_lookup | done].
Qed.

(** C7, on a filter of three empty pattern sets.  [bear_filter_create]
    returns a filter whose pattern lists have length 0 and an array pointer
    that was never written; releasing such a list, and so deleting the
    filter, passes that pointer to [free]: the behaviour is undefined, where
    the claim has a no-op. *)
Theorem delete_of_empty_sets_is_undefined :
  ∃ filter st,
    bear_filter_create (filter_config [] [] []) empty_state = Ret filter st ∧
    (∀ fld, ∃ f,
       heap st !! filter = Some (Filter f) ∧
       get_field fld f = {| length := Stored 0%nat; regexs := Indeterminate |} ∧
       release (filter, fld) st = Undefined) ∧
    bear_filter_delete filter st = Undefined.
Proof.
  eexists _, _. split; [by vm_compute |].
  split; [| by vm_compute].
  intros fld. eexists. split; [by vm_compute |].
  split; [by destruct fld |].
  eapply release_indeterminate; [by vm_compute | by destruct fld].
Qed.

(** C8. Classification is deterministic: a call on a filter returns, and any
    other call with the same invocation on a filter of the same three pattern
    sets (in any state of the heap, in particular the state the first call
    left) returns the same verdict, "none" or the same path string. *)
Theorem classification_is_deterministic st filter cs sfs cps e :
  filter_at (heap st) filter cs sfs cps →
  ∃ v1 st1,
    bear_filter_source_file filter e st = Ret v1 st1 ∧
    filter_at (heap st1) filter cs sfs cps ∧
    ∀ st' filter',
      filter_at (heap st') filter' cs sfs cps →
      ∃ v2 st2,
        bear_filter_source_file filter' e st' = Ret v2 st2 ∧
        verdict st2 v2 = verdict st1 v1.
Proof.
  intros Hfilter.
  destruct (bear_filter_source_file_spec st filter cs sfs cps e Hfilter)
    as (v1 & st1 & tr1 & Hrun1 & [Hok1 _] & _ & Hv1 & _).
  exists v1, st1. split_and!; [done | |].
  - eapply filter_at_mono; [apply without_subseteq | done].
  - intros st' filter' Hfilter'.
    destruct (bear_filter_source_file_spec st' filter' cs sfs cps e Hfilter')
      as (v2 & st2 & tr2 & Hrun2 & _ & _ & Hv2 & _).
    exists v2, st2. split; [done |]. by rewrite Hv1, Hv2.
Qed.

(** C9. A call does not modify the filter: every block that was live before
    the call (the filter structure and the arrays of its three pattern sets
    among them) is live and unchanged after it, and the filter holds the
    same three pattern sets. *)
Theorem classification_preserves_filter st filter cs sfs cps e :
  filter_at (heap st) filter cs sfs cps →
  ∃ v st',
    bear_filter_source_file filter e st = Ret v st' ∧
    (∀ a b, heap st !! a = Some b → heap st' !! a = Some b) ∧
    heap st' !! filter = heap st !! filter ∧
    filter_at (heap st') filter cs sfs cps.
Proof.
  intros Hfilter.
  destruct (bear_filter_source_file_spec st filter cs sfs cps e Hfilter)
    as (v & st' & tr & Hrun & [Hok _] & Hh & _).
  assert (heap st ⊆ heap st') as Hsub.
  { rewrite <- Hh. apply without_subseteq. }
  exists v, st'. split_and!; [done | | |].
  - intros a b Ha. by eapply lookup_weaken.
  - destruct Hfilter as (f & Hf & _). rewrite Hf.
    by eapply lookup_weaken.
  - by eapply filter_at_mono.
Qed.

(** C10. A verdict other than "none" is the resolution of the earliest
    argument, the program name included, that matches [source_files]: the
    program name matches [compilers], no argument before the resolved one
    matches [source_files] or [cancel_parameters], and none after it
    matches [cancel_parameters]. *)
Theorem verdict_is_earliest_source_file st filter cs sfs cps e p st' :
  filter_at (heap st) filter cs sfs cps →
  bear_filter_source_file filter e st = Ret (Some p) st' →
  ∃ pre a post,
    cmd e = Some (pre ++ a :: post) ∧
    (∃ arg0, head (pre ++ [a]) = Some arg0 ∧ matches cs arg0) ∧
    matches sfs a ∧
    verdict st' (Some p) = Some (resolve a (cwd e)) ∧
    Forall (λ x, ¬ matches sfs x ∧ ¬ matches cps x) pre ∧
    Forall (λ x, ¬ matches cps x) post.
Proof.
  intros Hfilter Hrun.
  destruct (bear_filter_source_file_spec st filter cs sfs cps e Hfilter)
    as (v & st1 & tr & Hrun' & Hok & _ & Hv & _).
  rewrite Hrun in Hrun'. injection Hrun' as <- <-.
  destruct (verdict_candidate _ _ _ _ _ _ Hok) as [s Hs].
  rewrite Hs in Hv. unfold classify in Hv.
  destruct (cmd e) as [[|arg0 rest]|]; [done | | done].
  case_decide as Hc; [| done]. symmetry in Hv.
  apply scan_verdict_inv in Hv as (pre & a & post & Hit & Ha & -> & Hpre & Hpost).
  exists pre, a, post. rewrite Hit. split_and!; try done.
  exists arg0. split; [| done].
  destruct pre; simpl in *; by injection Hit as <-.
Qed.

End Properties.

(** ** Further properties of the code *)

Section Further.
Context `{RegexLib}.

Implicit Types (st : state) (h : gmap addr block) (rs cs sfs cps : list regex_t).
Implicit Types (input arg file : string) (filter : addr) (e : bear_message_t).

(** *** Classification *)

Lemma verdict_is_None st filter cs sfs cps v :
  candidate_ok (heap st) filter cs sfs cps v → verdict st v = None → v = None.
Proof.
  destruct v as [p|]; [| done].
  intros [s Hs]%verdict_candidate. by rewrite Hs.
Qed.

Lemma first_argument pre a post arg0 :
  head (pre ++ [a]) = Some arg0 → ∃ rest, pre ++ a :: post = arg0 :: rest.
Proof. destruct pre; simpl; intros [= ->]; eauto. Qed.

(** X11. A call allocates nothing but the string it returns: with the
    "none" verdict the heap is as before the call (a candidate taken on the
    way was freed), and otherwise it is the heap before the call with one
    more block, at an address that was free, holding the returned string. *)
Theorem classification_footprint st filter cs sfs cps e :
  filter_at (heap st) filter cs sfs cps →
  ∃ v st',
    bear_filter_source_file filter e st = Ret v st' ∧
    match v with
    | None => heap st' = heap st
    | Some p => heap st !! p = None ∧
                ∃ s, heap st' = <[p := Chars s]> (heap st)
    end.
Proof.
  intros Hfilter.
  destruct (bear_filter_source_file_spec st filter cs sfs cps e Hfilter)
    as (v & st' & tr & Hrun & [_ Hp] & Hh & _).
  exists v, st'. split; [done |]. destruct v as [p|]; [| done].
  simpl in Hh. destruct Hp as [s Hs]. rewrite <- Hh. split.
  - apply lookup_delete_eq.
  - exists s. by rewrite insert_delete_id.
Qed.

(** X12. In a compiler call, the first argument that matches
    [source_files] is the verdict whenever no argument before it matches
    [cancel_parameters] and none after it does: it may be the program name,
    it may itself match [cancel_parameters], and later arguments that match
    [source_files] are ignored. *)
Theorem first_source_file_wins st filter cs sfs cps e arg0 pre a post :
  filter_at (heap st) filter cs sfs cps →
  cmd e = Some (pre ++ a :: post) →
  head (pre ++ [a]) = Some arg0 →
  matches cs arg0 →
  Forall (λ x, ¬ matches sfs x ∧ ¬ matches cps x) pre →
  matches sfs a →
  Forall (λ x, ¬ matches cps x) post →
  ∃ p st',
    bear_filter_source_file filter e st = Ret (Some p) st' ∧
    verdict st' (Some p) = Some (resolve a (cwd e)).
Proof.
  intros Hfilter Hcmd Hhead Hc Hpre Ha Hpost.
  destruct (bear_filter_source_file_spec st filter cs sfs cps e Hfilter)
    as (v & st' & tr & Hrun & Hok & _ & Hv & _).
  destruct (first_argument pre a post arg0 Hhead) as [rest Hrest].
  unfold classify in Hv. rewrite Hcmd, Hrest, decide_True in Hv by done.
  rewrite <- Hrest, scan_verdict_first in Hv by done.
  destruct v as [p|]; [| done]. by exists p, st'.
Qed.

Lemma scan_verdict_no_source sfs cps cwd it :
  Forall (λ x, ¬ matches sfs x) it →
  scan_verdict sfs cps cwd it None = None.
Proof.
  induction 1 as [|arg it Hs _ IH]; [done |].
  rewrite scan_verdict_cons_none, decide_False by done. by case_decide.
Qed.

(** X13. When no argument matches [source_files] (the program name
    included), the verdict is "none" and the heap is as before the call. *)
Theorem no_source_file_is_none st filter cs sfs cps e :
  filter_at (heap st) filter cs sfs cps →
  Forall (λ x, ¬ matches sfs x) (argv e) →
  ∃ st',
    bear_filter_source_file filter e st = Ret None st' ∧
    heap st' = heap st.
Proof.
  intros Hfilter Hno.
  destruct (bear_filter_source_file_spec st filter cs sfs cps e Hfilter)
    as (v & st' & tr & Hrun & Hok & Hh & Hv & _).
  assert (classify cs sfs cps e = None) as Hnone.
  { unfold classify, argv in *. destruct (cmd e) as [[|arg0 rest]|]; try done.
    case_decide; [| done]. by apply scan_verdict_no_source. }
  rewrite Hnone in Hv. apply (verdict_is_None _ _ _ _ _ _ Hok) in Hv as ->.
  by exists st'.
Qed.

Lemma resolve_absolute file cwd :
  String.get 0 cwd = Some "/"%char →
  String.get 0 (resolve file cwd) = Some "/"%char.
Proof.
  intros Hcwd. unfold resolve. case_decide; [done |].
  destruct cwd as [|c cwd]; [done |]. exact Hcwd.
Qed.

(** X14. When the working directory of the invocation is absolute (starts
    with '/'), every path the call returns is absolute. *)
Theorem verdict_is_absolute st filter cs sfs cps e p st' :
  filter_at (heap st) filter cs sfs cps →
  bear_filter_source_file filter e st = Ret (Some p) st' →
  String.get 0 (cwd e) = Some "/"%char →
  ∃ s, verdict st' (Some p) = Some s ∧ String.get 0 s = Some "/"%char.
Proof.
  intros Hfilter Hrun Hcwd.
  destruct (bear_filter_source_file_spec st filter cs sfs cps e Hfilter)
    as (v & st1 & tr & Hrun' & Hok & _ & Hv & _).
  rewrite Hrun in Hrun'. injection Hrun' as <- <-.
  destruct (verdict_candidate _ _ _ _ _ _ Hok) as [s Hs].
  exists s. split; [done |].
  rewrite Hs in Hv. unfold classify in Hv.
  destruct (cmd e) as [[|arg0 rest]|]; [done | | done].
  case_decide; [| done]. symmetry in Hv.
  apply scan_verdict_inv in Hv as (pre & a & post & _ & _ & -> & _).
  by apply resolve_absolute.
Qed.

Lemma matches_same_elements rs rs' input :
  (∀ r, r ∈ rs ↔ r ∈ rs') → matches rs input ↔ matches rs' input.
Proof.
  intros Hsame. unfold matches. rewrite !Exists_exists.
  split; intros (r & Hr & Hm); exists r; split; try done; by apply Hsame.
Qed.

Lemma scan_verdict_same_matches sfs cps sfs' cps' cwd it :
  (∀ x, matches sfs x ↔ matches sfs' x) →
  (∀ x, matches cps x ↔ matches cps' x) →
  ∀ cand, scan_verdict sfs cps cwd it cand = scan_verdict sfs' cps' cwd it cand.
Proof.
  intros Hs Hc. induction it as [|arg it IH]; intros cand; [done |].
  simpl. rewrite !IH.
  rewrite (decide_ext (cand = None ∧ matches sfs arg)
                      (cand = None ∧ matches sfs' arg)) by (by rewrite Hs).
  by rewrite (decide_ext (matches cps arg) (matches cps' arg)).
Qed.

(** X15. The verdict depends on each pattern set as a set: two filters whose
    [compilers], [source_files] and [cancel_parameters] lists have the same
    patterns, in whatever order and number, give the same verdict on every
    invocation. *)
Theorem verdict_depends_on_pattern_sets
    st filter cs sfs cps st' filter' cs' sfs' cps' e :
  filter_at (heap st) filter cs sfs cps →
  filter_at (heap st') filter' cs' sfs' cps' →
  (∀ r, r ∈ cs ↔ r ∈ cs') →
  (∀ r, r ∈ sfs ↔ r ∈ sfs') →
  (∀ r, r ∈ cps ↔ r ∈ cps') →
  ∃ v1 st1 v2 st2,
    bear_filter_source_file filter e st = Ret v1 st1 ∧
    bear_filter_source_file filter' e st' = Ret v2 st2 ∧
    verdict st1 v1 = verdict st2 v2.
Proof.
  intros Hfilter Hfilter' Hc Hs Hp.
  destruct (bear_filter_source_file_spec st filter cs sfs cps e Hfilter)
    as (v1 & st1 & tr1 & Hrun1 & _ & _ & Hv1 & _).
  destruct (bear_filter_source_file_spec st' filter' cs' sfs' cps' e Hfilter')
    as (v2 & st2 & tr2 & Hrun2 & _ & _ & Hv2 & _).
  exists v1, st1, v2, st2. split_and!; [done | done |].
  rewrite Hv1, Hv2. unfold classify.
  destruct (cmd e) as [[|arg0 rest]|]; try done.
  rewrite (decide_ext (matches cs arg0) (matches cs' arg0))
    by (by apply matches_same_elements).
  case_decide; [| done].
  apply scan_verdict_same_matches; intros x; by apply matches_same_elements.
Qed.

Lemma scan_arg_checks st filter cs sfs cps e arg result :
  candidate_ok (heap st) filter cs sfs cps result →
  ∃ c result' st' tr,
    scan_arg filter e arg result st = Ret (c, result') st' ∧
    candidate_ok (heap st') filter cs sfs cps result' ∧
    trace st' = trace st ++ tr ∧
    (List.length (consulted tr) ≤ 2)%nat.
Proof.
  intros Hok. rewrite (scan_arg_spec st filter cs sfs cps e arg result Hok).
  destruct (decide (result = None ∧ matches sfs arg)) as [[-> Hs]|Hno].
  - eexists _, _, _, _. split; [done |]. simpl. split_and!; [| done | simpl; lia].
    split; simpl.
    + rewrite delete_insert_id by apply fresh_lookup. apply Hok.
    + eexists. apply lookup_insert_eq.
  - destruct (decide (matches cps arg)) as [Hc|Hc].
    + eexists _, _, _, _. split; [done |]. simpl.
      split_and!; [by split; [apply Hok |] | done |].
      destruct result; simpl; lia.
    + eexists _, _, _, _. split; [done |]. simpl. split_and!; [done | done |].
      destruct result; simpl; lia.
Qed.

Lemma scan_checks filter cs sfs cps e it : ∀ st result,
  candidate_ok (heap st) filter cs sfs cps result →
  ∃ v st' tr,
    scan filter e it result st = Ret v st' ∧
    trace st' = trace st ++ tr ∧
    (List.length (consulted tr) ≤ 2 * List.length it)%nat.
Proof.
  induction it as [|arg it IH]; intros st result Hok.
  - exists result, st, []. simpl. rewrite app_nil_r. split_and!; [done | done | lia].
  - destruct (scan_arg_checks st filter cs sfs cps e arg result Hok)
      as (c & result' & st1 & tr1 & Hrun1 & Hok1 & Htr1 & Hlen1).
    cbn [scan]. erewrite bind_Ret by done. destruct c.
    + destruct (IH st1 result' Hok1) as (v & st' & tr & Hrun & Htr & Hlen).
      exists v, st', (tr1 ++ tr). split_and!; [done | |].
      * by rewrite Htr, Htr1, <- app_assoc.
      * rewrite consulted_app, length_app. simpl. lia.
    + exists result', st1, tr1. split_and!; [done | done |]. simpl. lia.
Qed.

(** X16. The scan is one pass: a call makes one [match] call for the
    program name and at most two for each argument, so at most
    [1 + 2 * argc] in all. *)
Theorem checks_are_linear st filter cs sfs cps e :
  filter_at (heap st) filter cs sfs cps →
  ∃ v st' tr,
    bear_filter_source_file filter e st = Ret v st' ∧
    trace st' = trace st ++ tr ∧
    (List.length (consulted tr) ≤ 1 + 2 * List.length (argv e))%nat.
Proof.
  intros Hfilter. unfold bear_filter_source_file, argv.
  destruct (cmd e) as [[|arg0 rest]|]; simpl;
    try (exists None, st, []; rewrite app_nil_r; split_and!; [done | done | simpl; lia]).
  erewrite bind_Ret by (by eapply (match_spec _ _ Compilers)). simpl.
  destruct (decide (matches cs arg0)) as [Hc|Hc].
  - rewrite match_value_1 by done. simpl.
    destruct (scan_checks filter cs sfs cps e (arg0 :: rest)
                (log st [ev_match (filter, Compilers) arg0]) None)
      as (v & st' & tr & Hrun & Htr & Hlen); [by split |].
    exists v, st', (ev_match (filter, Compilers) arg0 :: tr).
    split_and!; [done | |].
    + rewrite Htr. simpl. by rewrite <- app_assoc.
    + simpl in *. lia.
  - rewrite match_value_0 by done. simpl.
    exists None, (log st [ev_match (filter, Compilers) arg0]),
      [ev_match (filter, Compilers) arg0].
    split_and!; [done | done |]. simpl. lia.
Qed.

(** *** The life of a pattern set *)

Lemma bind_Ret_inv {A B} (m : M A) (f : A → M B) st b st' :
  (m ≫= f) st = Ret b st' → ∃ a st1, m st = Ret a st1 ∧ f a st1 = Ret b st'.
Proof.
  unfold mbind, M_bind. destruct (m st) as [a st1| |]; [| done ..].
  intros Hf. by exists a, st1.
Qed.

Lemma compile_exact st filter fld f ps rs :
  heap st !! filter = Some (Filter f) →
  compiles ps rs →
  compile (strings ps) (filter, fld) st
  = Ret () {| heap := compile_heap (heap st) filter fld rs; trace := trace st |}.
Proof.
  intros Hf Hps. pose proof (Forall2_length _ _ _ Hps) as Hlen.
  unfold compile, compile_heap. rewrite config_setting_length_strings, Hf.
  erewrite bind_Ret by (by apply load_list_spec).
  erewrite bind_Ret by (by apply store_list_spec).
  destruct Hps as [|p r ps rs Hp Hps].
  - by rewrite decide_True.
  - rewrite decide_False by done.
    assert (compiles (p :: ps) (r :: rs)) as Hall by (by constructor).
    set (n := List.length (p :: ps)) in *.
    set (l1 := {| length := Stored n; regexs := regexs (get_field fld f) |}).
    set (st1 := {| heap := <[filter := Filter (set_field fld l1 f)]> (heap st);
                   trace := trace st |}).
    assert (dom (heap st1) = dom (heap st)) as Hdom.
    { simpl. apply dom_insert_lookup_L. by eexists. }
    set (a := fresh (dom (heap st))).
    assert (heap st !! a = None) as Ha by apply fresh_lookup.
    assert (a ≠ filter) as Hne by (intros Heq; rewrite Heq in Ha; congruence).
    set (st2 := {| heap := <[a := Regexs (replicate n None)]> (heap st1);
                   trace := trace st1 |}).
    assert (malloc (Regexs (replicate n None)) st1 = Ret a st2) as Hmalloc.
    { unfold malloc. by rewrite Hdom. }
    erewrite bind_Ret by done.
    erewrite bind_Ret.
    2:{ apply load_list_spec. simpl. rewrite lookup_insert_ne by done.
        apply lookup_insert_eq. }
    rewrite get_set_field. cbn [length l1].
    erewrite bind_Ret.
    2:{ apply store_list_spec. simpl. rewrite lookup_insert_ne by done.
        apply lookup_insert_eq. }
    rewrite set_set_field.
    pose proof (compile_loop_spec a (p :: ps) (r :: rs) Hall [] []) as Hloop.
    cbn [app List.length fmap list_fmap] in Hloop. fold n in Hloop.
    rewrite Hloop; [| done |].
    2:{ simpl. rewrite lookup_insert_ne by done. apply lookup_insert_eq. }
    f_equal. cbn [heap trace compiled_list compiled_heap]. f_equal.
    fold a. rewrite <- Hlen. fold n.
    apply map_eq. intros i. subst st2 st1. cbn [heap].
    rewrite !lookup_insert. repeat case_decide; by subst.
Qed.


(** X7. [release] on a compiled set frees every compiled pattern once, in
    order, then the array, and changes no other block.  The list still
    points to the freed array: a second [release] of it is undefined. *)
Theorem release_frees_each_pattern_once st filter fld f a rs :
  heap st !! filter = Some (Filter f) →
  get_field fld f = {| length := Stored (List.length rs); regexs := Stored a |} →
  heap st !! a = Some (Regexs (Some <$> rs)) →
  ∃ st',
    release (filter, fld) st = Ret () st' ∧
    heap st' = delete a (heap st) ∧
    trace st' = trace st ++ released a (List.length rs) ∧
    release (filter, fld) st' = Undefined.
Proof.
  intros Hf Hfld Ha. eexists. split; [by eapply release_spec |].
  cbn [heap trace]. split_and!; [done | done |].
  assert (a ≠ filter) as Hne by (intros ->; congruence).
  unfold release.
  erewrite bind_Ret.
  2:{ apply load_list_spec. cbn [heap]. by rewrite lookup_delete_ne. }
  rewrite Hfld. cbn [length regexs read].
  unfold mbind at 1, M_bind at 1, mret at 1, M_ret at 1.
  destruct rs as [|r rs]; cbn [List.length release_loop].
  - unfold mbind, M_bind, mret, M_ret, free. cbn [heap].
    by rewrite (lookup_delete_eq (heap st) a).
  - unfold read, regfree_at, load_slots, load.
    repeat (unfold mbind, M_bind, mret, M_ret; cbn [heap]).
    by rewrite (lookup_delete_eq (heap st) a).
Qed.

(** X10. Once [bear_filter_delete] has returned, the filter is no live
    block: deleting it again is undefined, and so is classifying with it any
    invocation that has an argument. *)
Theorem filter_is_gone_after_delete filter st st' :
  bear_filter_delete filter st = Ret () st' →
  heap st' !! filter = None ∧
  bear_filter_delete filter st' = Undefined ∧
  ∀ e arg0 rest,
    cmd e = Some (arg0 :: rest) →
    bear_filter_source_file filter e st' = Undefined.
Proof.
  unfold bear_filter_delete.
  intros (_ & st1 & _ & (_ & st2 & _ & (_ & st3 & _ & Hfree)%bind_Ret_inv)
            %bind_Ret_inv)%bind_Ret_inv.
  assert (heap st' !! filter = None) as Hgone.
  { unfold free in Hfree. destruct (heap st3 !! filter); [| done].
    injection Hfree as <-. apply lookup_delete_eq. }
  split_and!; [done | |].
  - unfold release, load_list, load, mbind, M_bind. cbn [fst]. by rewrite Hgone.
  - intros e arg0 rest Hcmd. unfold bear_filter_source_file. rewrite Hcmd.
    unfold match_, record, load_list, load, mbind, M_bind. cbn [fst heap].
    by rewrite Hgone.
Qed.

(** *** Building a filter from a configuration *)

Lemma get_setting_array group name ps st :
  config_setting_get_member group name = Some (strings ps) →
  get_setting group name st = Ret (strings ps) st.
Proof. unfold get_setting. by intros ->. Qed.

Lemma get_setting_faulty group fld st :
  faulty group fld →
  get_setting group (member_name fld) st = Exit EXIT_FAILURE.
Proof.
  unfold faulty, get_setting.
  destruct (config_setting_get_member group (member_name fld)); [| done].
  by intros ->.
Qed.

Lemma get_setting_inv group name a st st' :
  get_setting group name st = Ret a st' →
  st' = st ∧ config_setting_get_member group name = Some a ∧
  config_setting_is_array a = true.
Proof.
  unfold get_setting.
  destruct (config_setting_get_member group name) as [s|]; [| done].
  destruct (config_setting_is_array s) eqn:Harr; [| done].
  by intros [= -> ->].
Qed.

Lemma compile_heap_unfold h filter fld f rs :
  h !! filter = Some (Filter f) →
  compile_heap h filter fld rs
  = <[filter := Filter (set_field fld (compiled_list h (get_field fld f) rs) f)]>
      (compiled_heap h rs).
Proof. unfold compile_heap. by intros ->. Qed.

Lemma compiled_heap_keeps h rs b x :
  h !! b = Some x → compiled_heap h rs !! b = Some x.
Proof.
  intros Hb. destruct rs as [|r rs]; [done |]. cbn [compiled_heap].
  rewrite lookup_insert_ne; [done |].
  intros <-. by rewrite fresh_lookup in Hb.
Qed.

Lemma compile_heap_keeps h filter fld f rs b x :
  h !! filter = Some (Filter f) → b ≠ filter →
  h !! b = Some x → compile_heap h filter fld rs !! b = Some x.
Proof.
  intros Hf Hb Hx. rewrite (compile_heap_unfold _ _ _ f) by done.
  rewrite lookup_insert_ne by done. by apply compiled_heap_keeps.
Qed.

Lemma compile_heap_filter h filter fld f rs :
  h !! filter = Some (Filter f) →
  compile_heap h filter fld rs !! filter
  = Some (Filter (set_field fld (compiled_list h (get_field fld f) rs) f)).
Proof.
  intros Hf. rewrite (compile_heap_unfold _ _ _ f) by done.
  apply lookup_insert_eq.
Qed.

(** The state [bear_filter_create] returns in. *)
Lemma bear_filter_create_exact config st ps_c ps_s ps_p cs sfs cps :
  configures config ps_c ps_s ps_p →
  compiles ps_c cs → compiles ps_s sfs → compiles ps_p cps →
  bear_filter_create config st
  = Ret (fresh (dom (heap st)))
        {| heap := created_heap (heap st) cs sfs cps; trace := trace st |}.
Proof.
  intros (group & Hgroup & Hc & Hs & Hp) Hcs Hsfs Hcps.
  unfold bear_filter_create, created_heap.
  set (filter := fresh (dom (heap st))).
  set (h0 := <[filter := Filter uninitialised]> (heap st)).
  assert (malloc (Filter uninitialised) st
          = Ret filter {| heap := h0; trace := trace st |}) as Hmalloc by done.
  erewrite bind_Ret by done. rewrite Hgroup.
  erewrite bind_Ret by (by apply get_setting_array).
  erewrite bind_Ret by (eapply compile_exact; [apply lookup_insert_eq | done]).
  cbn [heap trace].
  erewrite bind_Ret by (by apply get_setting_array).
  erewrite bind_Ret
    by (eapply compile_exact;
        [by eapply compile_heap_filter, lookup_insert_eq | done]).
  cbn [heap trace].
  erewrite bind_Ret by (by apply get_setting_array).
  erewrite bind_Ret
    by (eapply compile_exact;
        [by eapply compile_heap_filter, compile_heap_filter, lookup_insert_eq
        | done]).
  done.
Qed.

Lemma filter_config_configures ps_c ps_s ps_p :
  configures (filter_config ps_c ps_s ps_p) ps_c ps_s ps_p.
Proof. by exists (filter_group ps_c ps_s ps_p). Qed.

Lemma created_heap_filter_at h ps_c ps_s ps_p cs sfs cps :
  compiles ps_c cs → compiles ps_s sfs → compiles ps_p cps →
  filter_at (created_heap h cs sfs cps) (fresh (dom h)) cs sfs cps ∧
  h ⊆ created_heap h cs sfs cps.
Proof.
  intros Hc Hs Hp.
  destruct (bear_filter_create_spec {| heap := h; trace := [] |}
              ps_c ps_s ps_p cs sfs cps Hc Hs Hp)
    as (filter & st' & Hrun & Hfilter & Hsub & _).
  rewrite (bear_filter_create_exact _ _ ps_c ps_s ps_p cs sfs cps) in Hrun
    by auto using filter_config_configures.
  by injection Hrun as <- <-.
Qed.


Lemma regcomp_at_inv a idx pattern st st' :
  regcomp_at a idx pattern st = Ret 0 st' → is_Some (regcomp pattern).
Proof.
  unfold regcomp_at. intros (slots & st1 & _ & Hrest)%bind_Ret_inv.
  destruct (slots !! idx); [| done].
  destruct (regcomp pattern) as [r|]; [by eexists | done].
Qed.

Lemma compile_loop_inv elems a : ∀ todo idx st st',
  compile_loop (config_array elems) a todo idx st = Ret () st' →
  (idx + todo = List.length elems)%nat →
  ∃ ps rs, drop idx elems = config_string <$> ps ∧ compiles ps rs.
Proof.
  induction todo as [|todo IH]; intros idx st st' Hrun Hlen.
  - exists [], []. split; [| constructor].
    apply drop_ge. lia.
  - cbn [compile_loop] in Hrun. unfold config_setting_get_string_elem in Hrun.
    destruct (elems !! idx) as [[it|n]|] eqn:Hidx; [| done ..].
    apply bind_Ret_inv in Hrun as (result & st1 & Hcomp & Hrest).
    destruct (decide (0 ≠ result)) as [|Hzero]; [done |].
    assert (result = 0) as -> by (destruct (decide (0 = result)); [done | lia]).
    apply regcomp_at_inv in Hcomp as [r Hr].
    destruct (IH (S idx) st1 st' Hrest) as (ps & rs & Hdrop & Hps); [lia |].
    exists (it :: ps), (r :: rs). split; [| by constructor].
    rewrite (drop_S _ _ _ Hidx). simpl. by rewrite Hdrop.
Qed.

Lemma compile_inv array prepared st st' :
  compile array prepared st = Ret () st' →
  config_setting_is_array array = true →
  ∃ ps rs, array = strings ps ∧ compiles ps rs.
Proof.
  destruct array as [v|elems|members]; [done | | done]. intros Hrun _.
  unfold compile in Hrun. cbn [config_setting_length] in Hrun.
  apply bind_Ret_inv in Hrun as (l & st1 & _ & Hrun).
  apply bind_Ret_inv in Hrun as (_ & st2 & _ & Hrun).
  destruct (decide (0%nat = List.length elems)) as [Hlen|Hlen].
  - exists [], []. split; [| constructor].
    symmetry in Hlen. apply nil_length_inv in Hlen. by subst.
  - apply bind_Ret_inv in Hrun as (a & st3 & _ & Hrun).
    apply bind_Ret_inv in Hrun as (l' & st4 & _ & Hrun).
    apply bind_Ret_inv in Hrun as (_ & st5 & _ & Hrun).
    apply compile_loop_inv in Hrun as (ps & rs & Hdrop & Hps); [| done].
    exists ps, rs. by split; [unfold strings; rewrite <- Hdrop |].
Qed.

Lemma bear_filter_create_inv config st filter st' :
  bear_filter_create config st = Ret filter st' →
  ∃ ps_c ps_s ps_p cs sfs cps,
    configures config ps_c ps_s ps_p ∧
    compiles ps_c cs ∧ compiles ps_s sfs ∧ compiles ps_p cps.
Proof.
  unfold bear_filter_create.
  intros (filter' & st0 & _ & Hrun)%bind_Ret_inv.
  destruct (config_lookup config "filter") as [group|] eqn:Hgroup; [| done].
  apply bind_Ret_inv in Hrun as (a1 & s1 & (_ & Hm1 & Ha1)%get_setting_inv & Hrun).
  apply bind_Ret_inv in Hrun as ([] & st1 & Hc1 & Hrun).
  apply bind_Ret_inv in Hrun as (a2 & s2 & (_ & Hm2 & Ha2)%get_setting_inv & Hrun).
  apply bind_Ret_inv in Hrun as ([] & st2 & Hc2 & Hrun).
  apply bind_Ret_inv in Hrun as (a3 & s3 & (_ & Hm3 & Ha3)%get_setting_inv & Hrun).
  apply bind_Ret_inv in Hrun as ([] & st3 & Hc3 & Hrun).
  destruct (compile_inv _ _ _ _ Hc1 Ha1) as (ps_c & cs & Heq1 & Hcs).
  destruct (compile_inv _ _ _ _ Hc2 Ha2) as (ps_s & sfs & Heq2 & Hcs2).
  destruct (compile_inv _ _ _ _ Hc3 Ha3) as (ps_p & cps & Heq3 & Hcs3).
  subst a1 a2 a3.
  exists ps_c, ps_s, ps_p, cs, sfs, cps. split_and!; [| done ..].
  by exists group.
Qed.

(** X2. [bear_filter_read_from_file] returns a filter only when the file
    parses to a configuration whose [filter] group has the three members as
    arrays of strings, each of which [regcomp] accepts; the filter then
    holds the three compiled sets.  In every other case the call does not
    return. *)
Theorem read_from_file_returns_a_well_formed_filter
    (config_read_file : string → option config_t) file st filter st' :
  bear_filter_read_from_file config_read_file file st = Ret filter st' →
  ∃ config ps_c ps_s ps_p cs sfs cps,
    config_read_file file = Some config ∧
    configures config ps_c ps_s ps_p ∧
    compiles ps_c cs ∧ compiles ps_s sfs ∧ compiles ps_p cps ∧
    filter_at (heap st') filter cs sfs cps.
Proof.
  unfold bear_filter_read_from_file.
  destruct (config_read_file file) as [config|]; [| done].
  intros (filter' & st1 & Hrun & [= -> ->])%bind_Ret_inv.
  destruct (bear_filter_create_inv _ _ _ _ Hrun)
    as (ps_c & ps_s & ps_p & cs & sfs & cps & Hconfig & Hc & Hs & Hp).
  exists config, ps_c, ps_s, ps_p, cs, sfs, cps. split_and!; try done.
  rewrite (bear_filter_create_exact _ _ ps_c ps_s ps_p cs sfs cps) in Hrun
    by done.
  injection Hrun as <- <-.
  by eapply created_heap_filter_at.
Qed.

(** *** Configurations the code refuses *)

(** The loop of [compile] over a stretch of pattern strings that [regcomp]
    accepts, followed by [k] more elements. *)
Lemma compile_loop_prefix a rest k ps_ok rs_ok :
  compiles ps_ok rs_ok →
  ∀ ps_done rs_done st,
  List.length ps_done = List.length rs_done →
  heap st !! a
    = Some (Regexs ((Some <$> rs_done)
                      ++ replicate (List.length ps_ok + k) None)) →
  compile_loop (config_array ((config_string <$> (ps_done ++ ps_ok)) ++ rest)) a
    (List.length ps_ok + k) (List.length ps_done) st
  = compile_loop (config_array ((config_string <$> (ps_done ++ ps_ok)) ++ rest)) a
      k (List.length ps_done + List.length ps_ok)
      {| heap := <[a := Regexs ((Some <$> (rs_done ++ rs_ok))
                                  ++ replicate k None)]> (heap st);
         trace := trace st |}.
Proof.
  induction 1 as [|p r ps_ok rs_ok Hp _ IH]; intros ps_done rs_done st Hlen Ha.
  - simpl in *. rewrite !app_nil_r, Nat.add_0_r. rewrite insert_id by done.
    by destruct st.
  - cbn [compile_loop List.length Nat.add].
    unfold config_setting_get_string_elem.
    rewrite lookup_app_l by (rewrite length_fmap, length_app; simpl; lia).
    rewrite list_lookup_fmap, list_lookup_middle by done.
    cbn [fmap option_fmap option_map].
    unfold regcomp_at, load_slots, load, store, mbind, M_bind, mret, M_ret.
    cbn [List.length Nat.add replicate] in Ha. rewrite Ha.
    rewrite list_lookup_middle by (by rewrite length_fmap).
    rewrite Hp, Ha. rewrite decide_False by (by intros []).
    specialize (IH (ps_done ++ [p]) (rs_done ++ [r])
      {| heap := <[a := Regexs (<[List.length ps_done := Some r]>
                     ((Some <$> rs_done)
                        ++ None :: replicate (List.length ps_ok + k) None))]>
                   (heap st);
         trace := trace st |}).
    rewrite !length_app, <- !app_assoc in IH. cbn [List.length app] in IH.
    rewrite Nat.add_1_r in IH.
    replace (List.length ps_done + S (List.length ps_ok))%nat
      with (S (List.length ps_done) + List.length ps_ok)%nat by lia.
    etrans; [apply IH |].
    + rewrite Hlen. lia.
    + simpl. rewrite lookup_insert_eq. do 2 f_equal.
      rewrite Hlen, <- (Nat.add_0_r (List.length rs_done)).
      rewrite <- (length_fmap Some rs_done) at 1.
      rewrite insert_app_r. simpl. by rewrite fmap_app, <- app_assoc.
    + simpl. by rewrite insert_insert_eq.
Qed.

(** [compile] on an array of at least one element, up to its loop. *)
Lemma compile_start st filter fld f elems :
  heap st !! filter = Some (Filter f) →
  elems ≠ [] →
  ∃ a st',
    heap st' !! a = Some (Regexs (replicate (List.length elems) None)) ∧
    compile (config_array elems) (filter, fld) st
    = compile_loop (config_array elems) a (List.length elems) 0 st'.
Proof.
  intros Hf Hne. unfold compile. cbn [config_setting_length].
  erewrite bind_Ret by (by apply load_list_spec).
  erewrite bind_Ret by (by apply store_list_spec).
  rewrite decide_False by (by destruct elems).
  set (st1 := {| heap := <[filter := _]> (heap st); trace := trace st |}).
  set (a := fresh (dom (heap st1))).
  assert (heap st1 !! a = None) as Ha by apply fresh_lookup.
  assert (a ≠ filter) as Hna.
  { intros Heq. rewrite Heq in Ha. simpl in Ha. by rewrite lookup_insert_eq in Ha. }
  set (st2 := {| heap := <[a := Regexs (replicate (List.length elems) None)]>
                           (heap st1);
                 trace := trace st1 |}).
  assert (malloc (Regexs (replicate (List.length elems) None)) st1 = Ret a st2)
    as Hmalloc by done.
  erewrite bind_Ret by done.
  erewrite bind_Ret.
  2:{ apply load_list_spec. simpl. rewrite lookup_insert_ne by done.
      apply lookup_insert_eq. }
  erewrite bind_Ret.
  2:{ apply store_list_spec. simpl. rewrite lookup_insert_ne by done.
      apply lookup_insert_eq. }
  eexists a, _. split; [| done]. cbn [heap].
  rewrite lookup_insert_ne by done. apply lookup_insert_eq.
Qed.

Lemma compiles_all ps rs : compiles ps rs → Forall (λ p, is_Some (regcomp p)) ps.
Proof. induction 1; constructor; [by eexists | done]. Qed.

(** The patterns up to the first one that [regcomp] refuses. *)
Lemma first_refused ps :
  Exists (λ p, regcomp p = None) ps →
  ∃ ps_ok rs_ok bad rest,
    ps = ps_ok ++ bad :: rest ∧ compiles ps_ok rs_ok ∧ regcomp bad = None.
Proof.
  induction ps as [|p ps IH]; intros Hex; [by inversion Hex |].
  destruct (regcomp p) as [r|] eqn:Hp.
  - apply Exists_cons in Hex as [Hex|Hex]; [congruence |].
    destruct (IH Hex) as (ps_ok & rs_ok & bad & rest & -> & Hok & Hbad).
    exists (p :: ps_ok), (r :: rs_ok), bad, rest.
    split_and!; [done | by constructor | done].
  - exists [], [], p, ps. split_and!; [done | constructor | done].
Qed.

Lemma compile_refused st filter fld f ps :
  heap st !! filter = Some (Filter f) →
  Exists (λ p, regcomp p = None) ps →
  compile (strings ps) (filter, fld) st = Exit EXIT_FAILURE.
Proof.
  intros Hf (ps_ok & rs_ok & bad & rest & -> & Hok & Hbad)%first_refused.
  unfold strings.
  destruct (compile_start st filter fld f
              (config_string <$> ps_ok ++ bad :: rest) Hf)
    as (a & st' & Ha & ->).
  { intros Heq. apply (f_equal List.length) in Heq.
    rewrite length_fmap, length_app in Heq. simpl in Heq. lia. }
  rewrite length_fmap, length_app. cbn [List.length].
  rewrite length_fmap, length_app in Ha. cbn [List.length] in Ha.
  pose proof (compile_loop_prefix a (config_string <$> bad :: rest)
                (S (List.length rest)) ps_ok rs_ok Hok [] [] st' eq_refl Ha)
    as Hloop.
  cbn [app List.length Nat.add] in Hloop. rewrite <- fmap_app in Hloop.
  rewrite Hloop. cbn [compile_loop].
  unfold config_setting_get_string_elem.
  rewrite list_lookup_fmap, list_lookup_middle by done.
  cbn [fmap option_fmap option_map].
  unfold regcomp_at, load_slots, load, mbind, M_bind, mret, M_ret. cbn [heap].
  rewrite lookup_insert_eq. cbn [replicate].
  rewrite list_lookup_middle
    by (rewrite length_fmap; by eapply Forall2_length).
  by rewrite Hbad.
Qed.

Lemma compiles_or_refused ps :
  (∃ rs, compiles ps rs) ∨ Exists (λ p, regcomp p = None) ps.
Proof.
  induction ps as [|p ps [[rs Hrs]|Hex]].
  - left. exists []. constructor.
  - destruct (regcomp p) as [r|] eqn:Hp.
    + left. exists (r :: rs). by constructor.
    + right. by left.
  - right. by right.
Qed.

(** X3. A pattern that [regcomp] refuses, in any of the three arrays, aborts
    the construction: [bear_filter_create] exits with [EXIT_FAILURE] and
    returns no filter. *)
Theorem create_exits_on_refused_pattern config st ps_c ps_s ps_p :
  configures config ps_c ps_s ps_p →
  Exists (λ p, regcomp p = None) (ps_c ++ ps_s ++ ps_p) →
  bear_filter_create config st = Exit EXIT_FAILURE.
Proof.
  intros (group & Hgroup & Hc & Hs & Hp) Hex.
  unfold bear_filter_create.
  set (filter := fresh (dom (heap st))).
  set (h0 := <[filter := Filter uninitialised]> (heap st)).
  assert (malloc (Filter uninitialised) st
          = Ret filter {| heap := h0; trace := trace st |}) as Hmalloc by done.
  erewrite bind_Ret by done. rewrite Hgroup.
  erewrite bind_Ret by (by apply get_setting_array).
  destruct (compiles_or_refused ps_c) as [[cs Hcs]|Hbad].
  2:{ unfold mbind at 1, M_bind at 1.
      by erewrite compile_refused by (by try apply lookup_insert_eq). }
  erewrite bind_Ret by (eapply compile_exact; [apply lookup_insert_eq | done]).
  cbn [heap trace].
  erewrite bind_Ret by (by apply get_setting_array).
  destruct (compiles_or_refused ps_s) as [[sfs Hsfs]|Hbad].
  2:{ unfold mbind at 1, M_bind at 1.
      by erewrite compile_refused
        by (by try eapply compile_heap_filter, lookup_insert_eq). }
  erewrite bind_Ret
    by (eapply compile_exact;
        [by eapply compile_heap_filter, lookup_insert_eq | done]).
  cbn [heap trace].
  erewrite bind_Ret by (by apply get_setting_array).
  destruct (compiles_or_refused ps_p) as [[cps Hcps]|Hbad].
  2:{ unfold mbind at 1, M_bind at 1.
      by erewrite compile_refused
        by (by try eapply compile_heap_filter, compile_heap_filter,
                          lookup_insert_eq). }
  exfalso. apply Exists_app in Hex as [Hex|[Hex|Hex]%Exists_app].
  - apply compiles_all in Hcs. rewrite Forall_forall in Hcs.
    apply Exists_exists in Hex as (p & Hin & Hnone).
    destruct (Hcs p Hin) as [r Hr]. congruence.
  - apply compiles_all in Hsfs. rewrite Forall_forall in Hsfs.
    apply Exists_exists in Hex as (p & Hin & Hnone).
    destruct (Hsfs p Hin) as [r Hr]. congruence.
  - apply compiles_all in Hcps. rewrite Forall_forall in Hcps.
    apply Exists_exists in Hex as (p & Hin & Hnone).
    destruct (Hcps p Hin) as [r Hr]. congruence.
Qed.

(** X5. [get_setting] asks for an array, not for an array of strings: on an
    array with an element that is no string, after pattern strings that
    [regcomp] accepts, [compile] hands [regcomp] the null pointer that
    [config_setting_get_string_elem] returns, and its behaviour is
    undefined. *)
Theorem compile_of_a_non_string_is_undefined st filter fld f ps rs n rest :
  heap st !! filter = Some (Filter f) →
  compiles ps rs →
  compile (config_array ((config_string <$> ps) ++ config_int n :: rest))
    (filter, fld) st
  = Undefined.
Proof.
  intros Hf Hps.
  destruct (compile_start st filter fld f
              ((config_string <$> ps) ++ config_int n :: rest) Hf)
    as (a & st' & Ha & ->).
  { intros Heq. apply (f_equal List.length) in Heq.
    rewrite length_app, length_fmap in Heq. simpl in Heq. lia. }
  rewrite length_app, length_fmap in *. cbn [List.length] in *.
  pose proof (compile_loop_prefix a (config_int n :: rest)
                (S (List.length rest)) ps rs Hps [] [] st' eq_refl Ha)
    as Hloop.
  cbn [app List.length Nat.add] in Hloop.
  rewrite Hloop. cbn [compile_loop].
  unfold config_setting_get_string_elem.
  by rewrite list_lookup_middle by (by rewrite length_fmap).
Qed.

(** X4. Without a [filter] group in the configuration, or when the group
    lacks one of the three members or holds something that is no array under
    its name (the members read before it being arrays of patterns that
    [regcomp] accepts), [bear_filter_create] exits with [EXIT_FAILURE]. *)
Theorem create_exits_on_missing_setting config st :
  (config_lookup config "filter" = None ∨
   ∃ group fld,
     config_lookup config "filter" = Some group ∧
     faulty group fld ∧
     ∀ fld', earlier fld' fld →
       ∃ ps rs,
         config_setting_get_member group (member_name fld') = Some (strings ps) ∧
         compiles ps rs) →
  bear_filter_create config st = Exit EXIT_FAILURE.
Proof.
  intros Hbad. unfold bear_filter_create.
  set (filter := fresh (dom (heap st))).
  set (h0 := <[filter := Filter uninitialised]> (heap st)).
  assert (malloc (Filter uninitialised) st
          = Ret filter {| heap := h0; trace := trace st |}) as Hmalloc by done.
  erewrite bind_Ret by done.
  destruct Hbad as [-> | (group & fld & -> & Hfaulty & Hearlier)]; [done |].
  destruct fld.
  - unfold mbind at 1, M_bind at 1.
    by rewrite (get_setting_faulty group Compilers).
  - destruct (Hearlier Compilers I) as (ps_c & cs & Hc & Hcs).
    erewrite bind_Ret by (by apply get_setting_array).
    erewrite bind_Ret by (eapply compile_exact; [apply lookup_insert_eq | done]).
    unfold mbind at 1, M_bind at 1.
    by rewrite (get_setting_faulty group Source_files).
  - destruct (Hearlier Compilers I) as (ps_c & cs & Hc & Hcs).
    destruct (Hearlier Source_files I) as (ps_s & sfs & Hs & Hsfs).
    erewrite bind_Ret by (by apply get_setting_array).
    erewrite bind_Ret by (eapply compile_exact; [apply lookup_insert_eq | done]).
    cbn [heap trace].
    erewrite bind_Ret by (by apply get_setting_array).
    erewrite bind_Ret
      by (eapply compile_exact;
          [by eapply compile_heap_filter, lookup_insert_eq | done]).
    unfold mbind at 1, M_bind at 1.
    by rewrite (get_setting_faulty group Cancel_parameters).
Qed.

(** *** Deleting a filter that was built *)

Lemma compiled_heap_fresh h r rs :
  compiled_heap h (r :: rs) !! fresh (dom h) = Some (Regexs (Some <$> r :: rs)).
Proof. apply lookup_insert_eq. Qed.

(** X8. Building a filter from three arrays, none of them empty, of
    patterns that [regcomp] accepts and deleting it leaves the heap as it
    was before: every compiled pattern is freed once, then its array, and
    last the filter. *)
Theorem delete_after_create_restores_the_heap
    config st ps_c ps_s ps_p cs sfs cps :
  configures config ps_c ps_s ps_p →
  compiles ps_c cs → compiles ps_s sfs → compiles ps_p cps →
  cs ≠ [] → sfs ≠ [] → cps ≠ [] →
  ∃ filter st' st'' a_c a_s a_p,
    bear_filter_create config st = Ret filter st' ∧
    bear_filter_delete filter st' = Ret () st'' ∧
    heap st'' = heap st ∧
    trace st'' = trace st ++ released a_c (List.length cs)
                          ++ released a_s (List.length sfs)
                          ++ released a_p (List.length cps)
                          ++ [ev_free filter].
Proof.
  intros Hconfig Hcs Hsfs Hcps Hc Hs Hp.
  destruct cs as [|c cs]; [done |]. destruct sfs as [|s sfs]; [done |].
  destruct cps as [|p cps]; [done |].
  rewrite (bear_filter_create_exact _ _ _ _ _ _ _ _ Hconfig Hcs Hsfs Hcps).
  unfold created_heap.
  set (filter := fresh (dom (heap st))).
  set (h0 := <[filter := Filter uninitialised]> (heap st)).
  assert (heap st !! filter = None) as Hfresh by apply fresh_lookup.
  assert (h0 !! filter = Some (Filter uninitialised)) as Hf0
    by apply lookup_insert_eq.
  rewrite (compile_heap_unfold h0 _ _ _ _ Hf0).
  cbn [compiled_list compiled_heap].
  set (a_c := fresh (dom h0)).
  set (f1 := set_field Compilers _ uninitialised).
  set (h1 := <[filter := Filter f1]> (<[a_c := _]> h0)).
  assert (h0 !! a_c = None) as Hac by apply fresh_lookup.
  assert (h1 !! filter = Some (Filter f1)) as Hf1 by apply lookup_insert_eq.
  rewrite (compile_heap_unfold h1 _ _ _ _ Hf1).
  cbn [compiled_list compiled_heap].
  set (a_s := fresh (dom h1)).
  set (f2 := set_field Source_files _ f1).
  set (h2 := <[filter := Filter f2]> (<[a_s := _]> h1)).
  assert (h1 !! a_s = None) as Has by apply fresh_lookup.
  assert (h2 !! filter = Some (Filter f2)) as Hf2 by apply lookup_insert_eq.
  rewrite (compile_heap_unfold h2 _ _ _ _ Hf2).
  cbn [compiled_list compiled_heap].
  set (a_p := fresh (dom h2)).
  set (f3 := set_field Cancel_parameters _ f2).
  set (h3 := <[filter := Filter f3]> (<[a_p := _]> h2)).
  assert (h2 !! a_p = None) as Hap by apply fresh_lookup.
  assert (a_c ≠ filter) as Hn1 by (intros Heq; rewrite Heq in Hac; congruence).
  assert (a_s ≠ filter) as Hn2 by (intros Heq; rewrite Heq in Has; congruence).
  assert (a_p ≠ filter) as Hn3 by (intros Heq; rewrite Heq in Hap; congruence).
  assert (h1 !! a_c = Some (Regexs (Some <$> c :: cs))) as Hc1.
  { subst h1. rewrite lookup_insert_ne by done. apply lookup_insert_eq. }
  assert (a_s ≠ a_c) as Hn4 by (intros Heq; rewrite Heq in Has; congruence).
  assert (h2 !! a_c = Some (Regexs (Some <$> c :: cs))) as Hc2.
  { subst h2. by rewrite !lookup_insert_ne by done. }
  assert (h2 !! a_s = Some (Regexs (Some <$> s :: sfs))) as Hs2.
  { subst h2. rewrite lookup_insert_ne by done. apply lookup_insert_eq. }
  assert (a_p ≠ a_c) as Hn5 by (intros Heq; rewrite Heq in Hap; congruence).
  assert (a_p ≠ a_s) as Hn6 by (intros Heq; rewrite Heq in Hap; congruence).
  exists filter, {| heap := h3; trace := trace st |}.
  eexists _, a_c, a_s, a_p. split; [done |].
  unfold bear_filter_delete.
  erewrite bind_Ret.
  2:{ eapply (release_spec _ filter Compilers f3 a_c (c :: cs)).
      - apply lookup_insert_eq.
      - done.
      - cbn [heap]. subst h3. by rewrite !lookup_insert_ne by done. }
  erewrite bind_Ret.
  2:{ eapply (release_spec _ filter Source_files f3 a_s (s :: sfs)).
      - cbn [heap]. rewrite lookup_delete_ne by done. apply lookup_insert_eq.
      - done.
      - cbn [heap]. subst h3.
        by rewrite lookup_delete_ne, !lookup_insert_ne by done. }
  erewrite bind_Ret.
  2:{ eapply (release_spec _ filter Cancel_parameters f3 a_p (p :: cps)).
      - cbn [heap]. rewrite !lookup_delete_ne by done. apply lookup_insert_eq.
      - done.
      - cbn [heap]. subst h3.
        rewrite !lookup_delete_ne, lookup_insert_ne by done.
        apply lookup_insert_eq. }
  unfold free. cbn [heap trace].
  assert (delete a_p (delete a_s (delete a_c h3)) !! filter = Some (Filter f3))
    as ->.
  { rewrite !lookup_delete_ne by done. apply lookup_insert_eq. }
  split; [done |]. cbn [heap trace]. split.
  - apply map_eq. intros i. subst h3 h2 h1 h0.
    rewrite !lookup_delete, !lookup_insert.
    repeat case_decide; subst; try done.
    + rewrite !lookup_insert_ne in Hap by done. by rewrite Hap.
    + rewrite !lookup_insert_ne in Has by done. by rewrite Has.
    + rewrite !lookup_insert_ne in Hac by done. by rewrite Hac.
  - unfold released. by rewrite <- !app_assoc.
Qed.

(** X9. When one of the three arrays of a configuration is empty, whatever
    the other two hold, [bear_filter_create] returns a filter that
    [bear_filter_delete] cannot delete: releasing the empty set reads a
    pointer that was never written, which is undefined. *)
Theorem delete_with_an_empty_set_is_undefined
    config st ps_c ps_s ps_p cs sfs cps :
  configures config ps_c ps_s ps_p →
  compiles ps_c cs → compiles ps_s sfs → compiles ps_p cps →
  cs = [] ∨ sfs = [] ∨ cps = [] →
  ∃ filter st',
    bear_filter_create config st = Ret filter st' ∧
    bear_filter_delete filter st' = Undefined.
Proof.
  intros Hconfig Hcs Hsfs Hcps Hempty.
  rewrite (bear_filter_create_exact _ _ _ _ _ _ _ _ Hconfig Hcs Hsfs Hcps).
  eexists _, _. split; [done |].
  unfold created_heap.
  set (filter := fresh (dom (heap st))).
  set (h0 := <[filter := Filter uninitialised]> (heap st)).
  assert (h0 !! filter = Some (Filter uninitialised)) as Hf0
    by apply lookup_insert_eq.
  pose proof (compile_heap_filter h0 filter Compilers _ cs Hf0) as Hf1.
  set (h1 := compile_heap h0 filter Compilers cs) in *.
  set (f1 := set_field Compilers _ uninitialised) in Hf1.
  pose proof (compile_heap_filter h1 filter Source_files _ sfs Hf1) as Hf2.
  set (h2 := compile_heap h1 filter Source_files sfs) in *.
  set (f2 := set_field Source_files _ f1) in Hf2.
  pose proof (compile_heap_filter h2 filter Cancel_parameters _ cps Hf2) as Hf3.
  set (h3 := compile_heap h2 filter Cancel_parameters cps) in *.
  set (f3 := set_field Cancel_parameters _ f2) in Hf3.
  unfold bear_filter_delete.
  destruct cs as [|c cs].
  { unfold mbind at 1, M_bind at 1.
    by erewrite release_indeterminate by done. }
  assert (h1 !! fresh (dom h0) = Some (Regexs (Some <$> c :: cs))) as Hc1.
  { subst h1. rewrite (compile_heap_unfold _ _ _ _ _ Hf0).
    assert (fresh (dom h0) ≠ filter) as Hne.
    { intros Heq. pose proof (fresh_lookup h0) as Hfr.
      rewrite Heq in Hfr. congruence. }
    rewrite lookup_insert_ne by done. apply compiled_heap_fresh. }
  assert (fresh (dom h0) ≠ filter) as Hn1.
  { intros Heq. pose proof (fresh_lookup h0) as Hfr.
    rewrite Heq in Hfr. congruence. }
  assert (h3 !! fresh (dom h0) = Some (Regexs (Some <$> c :: cs))) as Hc3.
  { subst h3 h2. by do 2 (eapply compile_heap_keeps; [done | done |]). }
  erewrite bind_Ret.
  2:{ by eapply (release_spec _ filter Compilers f3 (fresh (dom h0)) (c :: cs)). }
  destruct sfs as [|s sfs].
  { unfold mbind at 1, M_bind at 1.
    erewrite release_indeterminate; [done | |].
    - cbn [heap]. by rewrite lookup_delete_ne.
    - done. }
  assert (h2 !! fresh (dom h1) = Some (Regexs (Some <$> s :: sfs))) as Hs2.
  { subst h2. rewrite (compile_heap_unfold _ _ _ _ _ Hf1).
    assert (fresh (dom h1) ≠ filter) as Hne.
    { intros Heq. pose proof (fresh_lookup h1) as Hfr.
      rewrite Heq in Hfr. congruence. }
    rewrite lookup_insert_ne by done. apply compiled_heap_fresh. }
  assert (fresh (dom h1) ≠ filter) as Hn2.
  { intros Heq. pose proof (fresh_lookup h1) as Hfr.
    rewrite Heq in Hfr. congruence. }
  assert (fresh (dom h1) ≠ fresh (dom h0)) as Hn3.
  { intros Heq. pose proof (fresh_lookup h1) as Hfr.
    rewrite Heq in Hfr. congruence. }
  assert (h3 !! fresh (dom h1) = Some (Regexs (Some <$> s :: sfs))) as Hs3.
  { subst h3. by eapply compile_heap_keeps. }
  erewrite bind_Ret.
  2:{ eapply (release_spec _ filter Source_files f3 (fresh (dom h1)) (s :: sfs)).
      - cbn [heap]. by rewrite lookup_delete_ne.
      - done.
      - cbn [heap]. by rewrite lookup_delete_ne. }
  destruct cps as [|p cps]; [| by destruct Hempty as [?|[?|?]]].
  unfold mbind at 1, M_bind at 1.
  erewrite release_indeterminate; [done | |].
  - cbn [heap]. by rewrite !lookup_delete_ne.
  - done.
Qed.

End Further.

(** ** Worked examples *)

Section Examples.
Local Existing Instance Posix.lib.

Ltac holds_by_computation :=
  split; [reflexivity | first [by left | right; eexists; split; reflexivity]].

Ltac filter_at_by_computation :=
  eexists; split; [reflexivity | split_and!; holds_by_computation].

(** The three states are what [bear_filter_create] builds. *)
Lemma states_built :
  bear_filter_create gcc_config empty_state = Ret 1%positive gcc_state ∧
  bear_filter_create cc_config empty_state = Ret 1%positive cc_state ∧
  bear_filter_create deps_config empty_state = Ret 1%positive deps_state.
Proof. split_and!; by vm_compute. Qed.

(** The end-to-end scenarios of the specification. *)
Example scenarios :
  run gcc_config (invocation "/home/u" ["gcc"; "-c"; "foo.c"])
    = Some (Some "/home/u/foo.c") ∧
  run gcc_config (invocation "/home/u" ["gcc"; "foo.c"; "-E"]) = Some None ∧
  run gcc_config (invocation "/home/u" ["clang"; "foo.c"]) = Some None.
Proof. split_and!; by vm_compute. Qed.

(** Deleting a filter of three sets of one pattern: every compiled pattern
    is freed once, then its array, then the filter; nothing is left. *)
Example delete_of_gcc_filter :
  bear_filter_delete 1%positive gcc_state
  = Ret () {| heap := ∅;
              trace := [ev_regfree 2%positive 0; ev_free 2%positive;
                        ev_regfree 3%positive 0; ev_free 3%positive;
                        ev_regfree 4%positive 0; ev_free 4%positive;
                        ev_free 1%positive] |}.
Proof. by vm_compute. Qed.

(** In the instance a match may start anywhere in the input and end before
    its end: [exec] is 0 exactly when the pattern accepts a prefix of some
    suffix of the input. *)
Lemma exec_unanchored r input :
  Posix.exec r input = 0 ↔
  ∃ before rest,
    input = before +:+ rest ∧
    Posix.accept r (bool_decide (before = "")) rest (λ _ _, true) = true.
Proof.
  unfold Posix.exec.
  assert (∀ s bol, Posix.search r bol s = true ↔
            ∃ before rest, s = before +:+ rest ∧
              Posix.accept r (if before is EmptyString then bol else false)
                rest (λ _ _, true) = true) as Hsearch.
  { induction s as [|c s IH]; intros bol; simpl.
    - rewrite orb_false_r. split.
      + intros Hacc. by exists "", "".
      + intros (before & rest & Heq & Hacc).
        destruct before; [| done]. change ("" = rest) in Heq. by subst.
    - rewrite orb_true_iff, IH. split.
      + intros [Hacc|(before & rest & -> & Hacc)].
        * by exists "", (String c s).
        * exists (String c before), rest. split; [done |].
          by destruct before.
      + intros (before & rest & Heq & Hacc). destruct before as [|c' before].
        * left. change (String c s = rest) in Heq. by subst.
        * right. change (String c s = String c' (before +:+ rest)) in Heq.
          injection Heq as -> ->. exists before, rest.
          split; [done |]. by destruct before. }
  specialize (Hsearch input true).
  destruct (Posix.search r true input).
  - split; [intros _ | done].
    destruct Hsearch as [Hs _].
    destruct (Hs eq_refl) as (before & rest & ? & ?).
    exists before, rest. split; [done |]. by destruct before.
  - split; [done |]. intros (before & rest & ? & ?).
    destruct Hsearch as [_ Hs]. discriminate Hs.
    exists before, rest. split; [done |]. by destruct before.
Qed.

Lemma gcc_filter :
  filter_at (heap gcc_state) 1%positive [pat "^gcc$"] [pat "\.c$"] [pat "^-E$"].
Proof. filter_at_by_computation. Qed.

Lemma cc_filter :
  filter_at (heap cc_state) 1%positive [pat "^cc$"] [pat "c$"] [].
Proof. filter_at_by_computation. Qed.

Lemma deps_filter :
  filter_at (heap deps_state) 1%positive
    [pat "^gcc$"] [pat "\.c$"] [pat "^-M"].
Proof. filter_at_by_computation. Qed.

(** C1 as stated fails: [cc -O2 main.c] is a compiler call, [main.c] is the
    one later argument that matches [source_files] and nothing matches
    [cancel_parameters]; but the scan starts at the program name, which
    matches [source_files] too, and the verdict is the program name
    resolved. *)
Lemma program_name_taken_as_source_file :
  filter_at (heap cc_state) 1%positive [pat "^cc$"] [pat "c$"] [] ∧
  matches [pat "^cc$"] "cc" ∧
  matches [pat "c$"] "main.c" ∧
  Forall (λ x, ¬ matches [pat "c$"] x) (["-O2"] ++ []) ∧
  Forall (λ x, ¬ matches [] x) ["cc"; "-O2"; "main.c"] ∧
  ∃ p st',
    bear_filter_source_file 1%positive
      (invocation "/home/u" ("cc" :: ["-O2"] ++ "main.c" :: []))
      cc_state = Ret (Some p) st' ∧
    verdict st' (Some p) = Some "/home/u/cc" ∧
    verdict st' (Some p) ≠ Some (resolve "main.c" "/home/u").
Proof.
  split; [apply cc_filter |].
  split_and!; [compute_done .. |].
  eexists _, _. split; [by vm_compute |]. by split.
Qed.

(** C1 (amended) on the first end-to-end scenario of the specification. *)
Lemma single_source_file_is_resolved_gcc :
  ∃ p st',
    bear_filter_source_file 1%positive
      (invocation "/home/u" ["gcc"; "-c"; "foo.c"]) gcc_state
    = Ret (Some p) st' ∧
    verdict st' (Some p) = Some "/home/u/foo.c".
Proof.
  apply (single_source_file_is_resolved gcc_state 1%positive
           [pat "^gcc$"] [pat "\.c$"] [pat "^-E$"]
           (invocation "/home/u" ["gcc"; "-c"; "foo.c"])
           "gcc" ["-c"] "foo.c" []);
    [apply gcc_filter | reflexivity | compute_done ..].
Defined.

(** C2 on the third end-to-end scenario of the specification. *)
Lemma not_a_compiler_call_is_none_clang :
  bear_filter_source_file 1%positive
    (invocation "/home/u" ["clang"; "foo.c"]) gcc_state
  = Ret None (log gcc_state [ev_match (1%positive, Compilers) "clang"]).
Proof.
  eapply (not_a_compiler_call_is_none gcc_state 1%positive _ [pat "^gcc$"]
            (invocation "/home/u" ["clang"; "foo.c"])).
  intros arg0 rest [= <- <-].
  split_and!; [reflexivity | holds_by_computation | compute_done].
Defined.

(** C3 as stated fails: in [gcc -MFdeps.c] the argument [-MFdeps.c] matches
    [cancel_parameters], but it is the first match of [source_files]: it
    becomes the candidate, its cancel check is skipped, and the verdict is
    not "none". *)
Lemma cancel_match_on_candidate_ignored :
  filter_at (heap deps_state) 1%positive
    [pat "^gcc$"] [pat "\.c$"] [pat "^-M"] ∧
  matches [pat "^gcc$"] "gcc" ∧
  "-MFdeps.c" ∈ ["gcc"; "-MFdeps.c"] ∧
  matches [pat "^-M"] "-MFdeps.c" ∧
  ∃ p st',
    bear_filter_source_file 1%positive
      (invocation "/home/u" ["gcc"; "-MFdeps.c"]) deps_state
    = Ret (Some p) st' ∧
    verdict st' (Some p) = Some "/home/u/-MFdeps.c" ∧
    verdict st' (Some p) ≠ None.
Proof.
  split; [apply deps_filter |].
  split_and!; [compute_done .. |].
  eexists _, _. split; [by vm_compute |]. by split.
Qed.

(** C3 (amended) on the second end-to-end scenario of the specification. *)
Lemma cancel_match_is_none_gcc_E :
  ∃ st' tr,
    bear_filter_source_file 1%positive
      (invocation "/home/u" (["gcc"; "foo.c"] ++ "-E" :: [])) gcc_state
    = Ret None st' ∧
    heap st' = heap gcc_state ∧
    trace st' = trace gcc_state ++ tr ∧
    consulted tr ⊆ ["gcc"; "foo.c"] ++ ["-E"] ∧
    ∀ post',
      bear_filter_source_file 1%positive
        {| cwd := "/home/u"; cmd := Some (["gcc"; "foo.c"] ++ "-E" :: post') |}
        gcc_state
      = Ret None st'.
Proof.
  apply (cancel_match_is_none gcc_state 1%positive
           [pat "^gcc$"] [pat "\.c$"] [pat "^-E$"]
           (invocation "/home/u" (["gcc"; "foo.c"] ++ "-E" :: []))
           "gcc" ["gcc"; "foo.c"] "-E" []);
    [apply gcc_filter | reflexivity | reflexivity | compute_done ..
    | intros _; compute_done].
Defined.

(** C4 on an argument that matches both [source_files] and
    [cancel_parameters], with no candidate yet. *)
Lemma candidate_and_cancel_exclusive_deps :
  ∃ c result' st' tr,
    scan_arg 1%positive (invocation "/home/u" ["gcc"; "-MFdeps.c"])
      "-MFdeps.c" None deps_state = Ret (c, result') st' ∧
    trace st' = trace deps_state ++ tr ∧
    (ev_match (1%positive, Source_files) "-MFdeps.c" ∈ tr ↔ @None addr = None) ∧
    (ev_match (1%positive, Cancel_parameters) "-MFdeps.c" ∈ tr
       ↔ ¬ (@None addr = None ∧ matches [pat "\.c$"] "-MFdeps.c")) ∧
    (@None addr = None ∧ matches [pat "\.c$"] "-MFdeps.c" →
       c = Continue ∧ verdict st' result' = Some (resolve "-MFdeps.c" "/home/u")) ∧
    (¬ (@None addr = None ∧ matches [pat "\.c$"] "-MFdeps.c") →
       matches [pat "^-M"] "-MFdeps.c" → c = Break ∧ result' = None) ∧
    (¬ (@None addr = None ∧ matches [pat "\.c$"] "-MFdeps.c") →
       ¬ matches [pat "^-M"] "-MFdeps.c" → c = Continue ∧ result' = None).
Proof.
  apply (candidate_and_cancel_exclusive deps_state 1%positive
           [pat "^gcc$"] [pat "\.c$"] [pat "^-M"]
           (invocation "/home/u" ["gcc"; "-MFdeps.c"]) "-MFdeps.c" None).
  split; [apply deps_filter | exact I].
Defined.

(** C5 on [foo.c] and the [source_files] set of the scenarios. *)
Lemma match_iff_some_pattern_foo_c :
  ∃ v, match_ (1%positive, Source_files) "foo.c" gcc_state
         = Ret v (log gcc_state [ev_match (1%positive, Source_files) "foo.c"]) ∧
       (v = 1 ∨ v = 0) ∧
       (v = 1 ↔ ∃ r, r ∈ [pat "\.c$"] ∧ regexec r "foo.c" = 0) ∧
       ([pat "\.c$"] = [] → v = 0).
Proof.
  eapply (match_iff_some_pattern gcc_state 1%positive Source_files);
    [reflexivity | holds_by_computation].
Defined.

(** C8 on the first scenario. *)
Lemma classification_is_deterministic_gcc :
  ∃ v1 st1,
    bear_filter_source_file 1%positive
      (invocation "/home/u" ["gcc"; "-c"; "foo.c"]) gcc_state = Ret v1 st1 ∧
    filter_at (heap st1) 1%positive [pat "^gcc$"] [pat "\.c$"] [pat "^-E$"] ∧
    ∀ st' filter',
      filter_at (heap st') filter' [pat "^gcc$"] [pat "\.c$"] [pat "^-E$"] →
      ∃ v2 st2,
        bear_filter_source_file filter'
          (invocation "/home/u" ["gcc"; "-c"; "foo.c"]) st' = Ret v2 st2 ∧
        verdict st2 v2 = verdict st1 v1.
Proof.
  apply (classification_is_deterministic gcc_state 1%positive
           [pat "^gcc$"] [pat "\.c$"] [pat "^-E$"]
           (invocation "/home/u" ["gcc"; "-c"; "foo.c"])).
  apply gcc_filter.
Defined.

(** C9 on the first scenario. *)
Lemma classification_preserves_filter_gcc :
  ∃ v st',
    bear_filter_source_file 1%positive
      (invocation "/home/u" ["gcc"; "-c"; "foo.c"]) gcc_state = Ret v st' ∧
    (∀ a b, heap gcc_state !! a = Some b → heap st' !! a = Some b) ∧
    heap st' !! 1%positive = heap gcc_state !! 1%positive ∧
    filter_at (heap st') 1%positive [pat "^gcc$"] [pat "\.c$"] [pat "^-E$"].
Proof.
  apply (classification_preserves_filter gcc_state 1%positive
           [pat "^gcc$"] [pat "\.c$"] [pat "^-E$"]
           (invocation "/home/u" ["gcc"; "-c"; "foo.c"])).
  apply gcc_filter.
Defined.

(** C10 on a call with two source files: the first is the verdict. *)
Lemma verdict_is_earliest_source_file_gcc :
  ∃ pre a post,
    Some ["gcc"; "-c"; "foo.c"; "bar.c"] = Some (pre ++ a :: post) ∧
    (∃ arg0, head (pre ++ [a]) = Some arg0 ∧ matches [pat "^gcc$"] arg0) ∧
    matches [pat "\.c$"] a ∧
    verdict
      (state_after (bear_filter_source_file 1%positive
         (invocation "/home/u" ["gcc"; "-c"; "foo.c"; "bar.c"]) gcc_state))
      (Some 5%positive) = Some (resolve a "/home/u") ∧
    Forall (λ x, ¬ matches [pat "\.c$"] x ∧ ¬ matches [pat "^-E$"] x) pre ∧
    Forall (λ x, ¬ matches [pat "^-E$"] x) post.
Proof.
  apply (verdict_is_earliest_source_file gcc_state 1%positive
           [pat "^gcc$"] [pat "\.c$"] [pat "^-E$"]
           (invocation "/home/u" ["gcc"; "-c"; "foo.c"; "bar.c"]) 5%positive);
    [apply gcc_filter | by vm_compute].
Defined.

Ltac compiles_by_computation :=
  repeat (constructor; [by vm_compute |]); constructor.


(** X2 on a file system whose [bear.conf] holds that configuration. *)
Lemma read_from_file_returns_a_well_formed_filter_bear_conf :
  ∃ config ps_c ps_s ps_p cs sfs cps,
    bear_conf "bear.conf" = Some config ∧
    configures config ps_c ps_s ps_p ∧
    compiles ps_c cs ∧ compiles ps_s sfs ∧ compiles ps_p cps ∧
    filter_at (heap gcc_state) 1%positive cs sfs cps.
Proof.
  apply (read_from_file_returns_a_well_formed_filter bear_conf "bear.conf"
           empty_state 1%positive gcc_state).
  by vm_compute.
Defined.

(** X3 on a [source_files] array with an unmatched parenthesis. *)
Lemma create_exits_on_refused_pattern_paren :
  bear_filter_create refused_config empty_state = Exit EXIT_FAILURE.
Proof.
  apply (create_exits_on_refused_pattern refused_config empty_state
           ["^gcc$"] ["("] []);
    [apply filter_config_configures | compute_done].
Defined.

(** X4 on a group that has [compilers] only. *)
Lemma create_exits_on_missing_setting_source_files :
  bear_filter_create partial_config empty_state = Exit EXIT_FAILURE.
Proof.
  apply (create_exits_on_missing_setting partial_config empty_state).
  right. exists (config_group [("compilers", strings ["^gcc$"])]), Source_files.
  split_and!; [done | done |].
  intros [] Hearlier; try done.
  exists ["^gcc$"], [pat "^gcc$"]. split; [done | compiles_by_computation].
Defined.

(** X5 on an array of a pattern and a number. *)
Lemma compile_of_a_non_string_is_undefined_number :
  compile (config_array ((config_string <$> ["^cc$"]) ++ config_int 7 :: []))
    (1%positive, Compilers) gcc_state
  = Undefined.
Proof.
  eapply (compile_of_a_non_string_is_undefined gcc_state 1%positive Compilers
            _ ["^cc$"] [pat "^cc$"] 7 []);
    [reflexivity | compiles_by_computation].
Defined.


(** X7 on the [compilers] set of the scenarios. *)
Lemma release_frees_each_pattern_once_gcc :
  ∃ st',
    release (1%positive, Compilers) gcc_state = Ret () st' ∧
    heap st' = delete 2%positive (heap gcc_state) ∧
    trace st' = trace gcc_state ++ released 2%positive (List.length [pat "^gcc$"]) ∧
    release (1%positive, Compilers) st' = Undefined.
Proof.
  eapply (release_frees_each_pattern_once gcc_state 1%positive Compilers
            _ 2%positive [pat "^gcc$"]); reflexivity.
Defined.

(** X8 on the configuration of the scenarios. *)
Lemma delete_after_create_restores_the_heap_gcc :
  ∃ filter st' st'' a_c a_s a_p,
    bear_filter_create gcc_config empty_state = Ret filter st' ∧
    bear_filter_delete filter st' = Ret () st'' ∧
    heap st'' = heap empty_state ∧
    trace st'' = trace empty_state
                   ++ released a_c (List.length [pat "^gcc$"])
                   ++ released a_s (List.length [pat "\.c$"])
                   ++ released a_p (List.length [pat "^-E$"])
                   ++ [ev_free filter].
Proof.
  apply (delete_after_create_restores_the_heap (H := Posix.lib) gcc_config empty_state
           ["^gcc$"] ["\.c$"] ["^-E$"] [pat "^gcc$"] [pat "\.c$"] [pat "^-E$"]);
    [apply filter_config_configures | compiles_by_computation .. | done | done | done].
Defined.

(** X9 on a configuration with no cancel pattern. *)
Lemma delete_with_an_empty_set_is_undefined_cc :
  ∃ filter st',
    bear_filter_create cc_config empty_state = Ret filter st' ∧
    bear_filter_delete filter st' = Undefined.
Proof.
  apply (delete_with_an_empty_set_is_undefined (H := Posix.lib) cc_config empty_state
           ["^cc$"] ["c$"] [] [pat "^cc$"] [pat "c$"] []);
    [apply filter_config_configures | compiles_by_computation .. | by right; right].
Defined.

(** X10 on the filter of the scenarios. *)
Lemma filter_is_gone_after_delete_gcc :
  heap deleted_state !! 1%positive = None ∧
  bear_filter_delete 1%positive deleted_state = Undefined ∧
  ∀ e arg0 rest,
    cmd e = Some (arg0 :: rest) →
    bear_filter_source_file 1%positive e deleted_state = Undefined.
Proof.
  apply (filter_is_gone_after_delete 1%positive gcc_state deleted_state).
  by vm_compute.
Defined.

(** X11 on the first scenario. *)
Lemma classification_footprint_gcc :
  ∃ v st',
    bear_filter_source_file 1%positive
      (invocation "/home/u" ["gcc"; "-c"; "foo.c"]) gcc_state = Ret v st' ∧
    match v with
    | None => heap st' = heap gcc_state
    | Some p => heap gcc_state !! p = None ∧
                ∃ s, heap st' = <[p := Chars s]> (heap gcc_state)
    end.
Proof.
  apply (classification_footprint gcc_state 1%positive
           [pat "^gcc$"] [pat "\.c$"] [pat "^-E$"]
           (invocation "/home/u" ["gcc"; "-c"; "foo.c"])).
  apply gcc_filter.
Defined.

(** X12 on a call with two source files. *)
Lemma first_source_file_wins_gcc :
  ∃ p st',
    bear_filter_source_file 1%positive
      (invocation "/home/u" (["gcc"] ++ "foo.c" :: ["bar.c"])) gcc_state
    = Ret (Some p) st' ∧
    verdict st' (Some p) = Some "/home/u/foo.c".
Proof.
  apply (first_source_file_wins gcc_state 1%positive
           [pat "^gcc$"] [pat "\.c$"] [pat "^-E$"]
           (invocation "/home/u" (["gcc"] ++ "foo.c" :: ["bar.c"]))
           "gcc" ["gcc"] "foo.c" ["bar.c"]);
    [apply gcc_filter | reflexivity | reflexivity | compute_done ..].
Defined.

(** X13 on a link step. *)
Lemma no_source_file_is_none_link :
  ∃ st',
    bear_filter_source_file 1%positive
      (invocation "/home/u" ["gcc"; "foo.o"; "-o"; "foo"]) gcc_state
    = Ret None st' ∧
    heap st' = heap gcc_state.
Proof.
  apply (no_source_file_is_none gcc_state 1%positive
           [pat "^gcc$"] [pat "\.c$"] [pat "^-E$"]
           (invocation "/home/u" ["gcc"; "foo.o"; "-o"; "foo"]));
    [apply gcc_filter | compute_done].
Defined.

(** X14 on the first scenario. *)
Lemma verdict_is_absolute_gcc :
  ∃ s,
    verdict
      (state_after (bear_filter_source_file 1%positive
         (invocation "/home/u" ["gcc"; "-c"; "foo.c"]) gcc_state))
      (Some 5%positive) = Some s ∧
    String.get 0 s = Some "/"%char.
Proof.
  apply (verdict_is_absolute gcc_state 1%positive
           [pat "^gcc$"] [pat "\.c$"] [pat "^-E$"]
           (invocation "/home/u" ["gcc"; "-c"; "foo.c"]) 5%positive);
    [apply gcc_filter | by vm_compute | reflexivity].
Defined.

Lemma twice_filter :
  filter_at (heap twice_state) 1%positive
    [pat "^gcc$"; pat "^gcc$"] [pat "\.c$"] [pat "^-E$"; pat "^-E$"].
Proof. filter_at_by_computation. Qed.

(** X15 on the filter of the scenarios and one with repeated patterns. *)
Lemma verdict_depends_on_pattern_sets_twice :
  ∃ v1 st1 v2 st2,
    bear_filter_source_file 1%positive
      (invocation "/home/u" ["gcc"; "-c"; "foo.c"]) gcc_state = Ret v1 st1 ∧
    bear_filter_source_file 1%positive
      (invocation "/home/u" ["gcc"; "-c"; "foo.c"]) twice_state = Ret v2 st2 ∧
    verdict st1 v1 = verdict st2 v2.
Proof.
  apply (verdict_depends_on_pattern_sets
           gcc_state 1%positive [pat "^gcc$"] [pat "\.c$"] [pat "^-E$"]
           twice_state 1%positive
           [pat "^gcc$"; pat "^gcc$"] [pat "\.c$"] [pat "^-E$"; pat "^-E$"]);
    [apply gcc_filter | apply twice_filter | intros r; set_solver ..].
Defined.

(** X16 on the first scenario. *)
Lemma checks_are_linear_gcc :
  ∃ v st' tr,
    bear_filter_source_file 1%positive
      (invocation "/home/u" ["gcc"; "-c"; "foo.c"]) gcc_state = Ret v st' ∧
    trace st' = trace gcc_state ++ tr ∧
    (List.length (consulted tr)
     ≤ 1 + 2 * List.length (argv (invocation "/home/u" ["gcc"; "-c"; "foo.c"])))%nat.
Proof.
  apply (checks_are_linear gcc_state 1%positive
           [pat "^gcc$"] [pat "\.c$"] [pat "^-E$"]
           (invocation "/home/u" ["gcc"; "-c"; "foo.c"])).
  apply gcc_filter.
Defined.

End Examples.
